(** * avant-public-apps: the probe-and-classify engine

    A shallow embedding of the two Go programs of the repository (the
    program of [main.go], and the second program, which adds the Avant
    and certificate rules and a pause before the report), and the
    properties of their probe worker [procApp], of the body classifier,
    and of the dispatcher/collector in [main]. *)

From Stdlib Require Import ZArith Strings.String Strings.Ascii Strings.Byte DecimalString Lia.
From stdpp Require Import base list.

Local Open Scope string_scope.
Local Open Scope Z_scope.

(** ** Go primitives used by the programs *)

(** [len(s)] on a string and on a byte slice, as a Go [int]. *)
Definition len_string (s : string) : Z := Z.of_nat (String.length s).
Definition len_bytes (b : list byte) : Z := Z.of_nat (length b).

(** [[]byte("...")] and [string(b)]: a Go string is its bytes. *)
Definition bytes_of (s : string) : list byte := list_byte_of_string s.
Definition string_of (b : list byte) : string := string_of_list_byte b.

(** [bytes.HasPrefix(s, prefix)]. *)
Fixpoint bytes_HasPrefix (s prefix : list byte) {struct prefix} : bool :=
  match prefix, s with
  | [], _ => true
  | _ :: _, [] => false
  | p :: prefix', c :: s' => Byte.eqb c p && bytes_HasPrefix s' prefix'
  end.

(** [bytes.Contains(b, subslice)]: [subslice] occurs somewhere in [b]. *)
Fixpoint bytes_Contains (b subslice : list byte) : bool :=
  bytes_HasPrefix b subslice ||
  match b with
  | [] => false
  | _ :: b' => bytes_Contains b' subslice
  end.

(** [strings.Contains(s, substr)]. *)
Definition strings_Contains (s substr : string) : bool :=
  bytes_Contains (bytes_of s) (bytes_of substr).

(** [b[:hi]] on a slice. Go panics when [hi] is out of range; the range
    is taken here up to [len(b)] (Go allows up to [cap(b) >= len(b)], so
    a slice expression that is in range here is in range in Go). *)
Definition slice_to (b : list byte) (hi : Z) : option (list byte) :=
  if (0 <=? hi) && (hi <=? len_bytes b) then Some (take (Z.to_nat hi) b) else None.

(** The verb [%v] of [fmt] on an [int] and on a [bool]. *)
Definition fmt_int (n : Z) : string := NilZero.string_of_int (Z.to_int n).
Definition fmt_bool (b : bool) : string := if b then "true" else "false".

(** ** The result record *)

Record reqRslt := mkReqRslt {
  App : string;
  Accessible : bool;
  Status : Z;
  Notes : string
}.

(** The zero value of [reqRslt] ([var tReslt reqRslt]). *)
Definition reqRslt_zero : reqRslt :=
  {| App := ""; Accessible := false; Status := 0; Notes := "" |}.

(** [fill] populates the object with data. *)
Definition fill (r : reqRslt) (app : string) (acc : bool) (st : Z) (nts : string) : reqRslt :=
  let r := {| App := App r; Accessible := acc; Status := Status r; Notes := Notes r |} in
  let r := {| App := app; Accessible := Accessible r; Status := Status r; Notes := Notes r |} in
  let r := {| App := App r; Accessible := Accessible r; Status := Status r; Notes := nts |} in
  {| App := App r; Accessible := Accessible r; Status := st; Notes := Notes r |}.

(** ** The network as the worker sees it *)

(** A Go [error], by its message [Error()]; [None] is [nil]. *)
Definition error := option string.

(** What [http.Get] hands back on success: the status code, and what
    [ioutil.ReadAll(resp.Body)] will return (the bytes read, and the
    read error if there is one). *)
Record Response := mkResponse {
  StatusCode : Z;
  Body : list byte * error
}.

(** The two outcomes of [http.Get]: a non-nil error or a response. *)
Inductive GetOutcome :=
| GetFailed (ferr : string)
| GetResponse (resp : Response).

(** ** Goroutines as event sequences *)

(** What a goroutine running [procApp] does that is visible outside it. *)
Inductive Event :=
| EvGet (url : string)     (* http.Get(url) *)
| EvReadAll                (* ioutil.ReadAll(resp.Body) *)
| EvPrintf (s : string)    (* fmt.Printf: standard output *)
| EvLog (s : string)       (* log.Printf: standard error *)
| EvSend (r : reqRslt)     (* c <- &tReslt *)
| EvClose                  (* resp.Body.Close(), deferred *)
| EvDone                   (* wg.Done(), deferred *)
| EvPanic.                 (* a run-time panic reaches the top of the goroutine *)

(** The frame of one call: the events performed so far, and the stack of
    deferred calls (last deferred first). *)
Record Frame := mkFrame {
  performed : list Event;
  deferred : list Event
}.

(** A computation in a frame; [None] is a panic. *)
Definition M (A : Type) : Type := Frame -> option A * Frame.

Definition ret {A} (a : A) : M A := fun fr => (Some a, fr).

Definition bind {A B} (m : M A) (k : A -> M B) : M B :=
  fun fr =>
    match m fr with
    | (Some a, fr') => k a fr'
    | (None, fr') => (None, fr')
    end.

Notation "x <- m ;; k" := (bind m (fun x => k))
  (at level 100, m at level 99, k at level 200, right associativity).
Notation "m ;;; k" := (bind m (fun _ => k))
  (at level 100, k at level 200, right associativity).

Definition emit (e : Event) : M unit :=
  fun fr => (Some tt, {| performed := performed fr ++ [e]; deferred := deferred fr |}).

Definition defer (e : Event) : M unit :=
  fun fr => (Some tt, {| performed := performed fr; deferred := e :: deferred fr |}).

Definition panic {A} : M A := fun fr => (None, fr).

Definition lift_option {A} (o : option A) : M A :=
  match o with
  | Some a => ret a
  | None => panic
  end.

(** [go f()]: the whole event sequence of the goroutine. The deferred
    calls run when the function returns, and also when it panics, before
    the panic takes the program down. *)
Definition go (f : M unit) : list Event :=
  match f {| performed := []; deferred := [] |} with
  | (Some _, fr) => performed fr ++ deferred fr
  | (None, fr) => performed fr ++ deferred fr ++ [EvPanic]
  end.

(** The result a goroutine puts on the channel: its first send. *)
Fixpoint sent_result (es : list Event) : option reqRslt :=
  match es with
  | [] => None
  | EvSend r :: _ => Some r
  | _ :: es' => sent_result es'
  end.

(** The URLs a goroutine passed to [http.Get], one per call. What the
    client does inside a call (following a redirect, failing to parse the
    URL) is part of the call's outcome and is not counted here. *)
Fixpoint requests (es : list Event) : list string :=
  match es with
  | [] => []
  | EvGet url :: es' => url :: requests es'
  | _ :: es' => requests es'
  end.

Section Worker.

(** The network of this goroutine: the outcome of [http.Get] on a URL. *)
Variable Get : string -> GetOutcome.

Definition http_Get (url : string) : M GetOutcome :=
  emit (EvGet url) ;;; ret (Get url).

Definition ioutil_ReadAll (resp : Response) : M (list byte * error) :=
  emit EvReadAll ;;; ret (Body resp).

Definition fmt_Printf (s : string) : M unit := emit (EvPrintf s).
Definition log_Printf (s : string) : M unit := emit (EvLog s).

(** The label [WrapUp]: put the result on the channel and return. *)
Definition WrapUp (tReslt : reqRslt) : M unit := emit (EvSend tReslt).

End Worker.

(** ** The program of [main.go] *)

Module Main.

(** [isHTML] indicates if the response body is a web page. *)
Definition isHTML (b : list byte) : bool :=
  if bytes_Contains b (bytes_of "<html") || bytes_Contains b (bytes_of "<HTML") then
    bytes_Contains b (bytes_of "<body") || bytes_Contains b (bytes_of "<BODY")
  else false.

(** [isHerokuPage] indicates if the response body is a Heroku error
    page or welcome page. *)
Definition isHerokuPage (b : list byte) : bool :=
  if bytes_Contains b (bytes_of "www.herokucdn.com/error-pages/application-error.html") then true
  else if bytes_Contains b (bytes_of "Welcome to your new app") then true
  else false.

Definition procApp (Get : string -> GetOutcome) (site : string) : M unit :=
  let tReslt := reqRslt_zero in
  let tLen := 50 in
  defer EvDone ;;;
  if len_string site =? 0 then
    WrapUp (fill tReslt site false 999 "no site name was provided")
  else
    let tURL := "http://" ++ site ++ ".herokuapp.com" in
    got <- http_Get Get tURL ;;
    match got with
    | GetFailed ferr =>
        log_Printf ("ERROR: error occurred fetching: " ++ tURL ++ ". See: " ++ ferr) ;;;
        WrapUp (fill tReslt site false 999 ("error getting site response: " ++ ferr))
    | GetResponse resp =>
        defer EvClose ;;;
        rd <- ioutil_ReadAll resp ;;
        match rd with
        | (_, Some ferr) =>
            log_Printf ("ERROR: error occurred reading a response body for site: "
                        ++ site ++ ". See: " ++ ferr ++ String "010" "") ;;;
            WrapUp (fill tReslt site false 999 ("error reading the site response: " ++ ferr))
        | (body, None) =>
            if isHerokuPage body then
              WrapUp (fill tReslt site false (StatusCode resp)
                           "Heroku welcome or application error page")
            else if isHTML body then
              WrapUp (fill tReslt site true (StatusCode resp) "HTML page")
            else
              let tLen := if len_bytes body <? tLen then len_bytes body else tLen in
              pre <- lift_option (slice_to body tLen) ;;
              let tStr := "found this (first " ++ fmt_int tLen ++ " bytes): "
                          ++ string_of pre ++ "..." in
              WrapUp (fill tReslt site true (StatusCode resp) tStr)
        end
    end.

End Main.

(** ** The second program, with the Avant and certificate rules *)

Module Avant.

(** [isHTML] indicates if the response body is a web page. *)
Definition isHTML (b : list byte) : bool :=
  if bytes_Contains b (bytes_of "<html") || bytes_Contains b (bytes_of "<HTML") then
    bytes_Contains b (bytes_of "<body") || bytes_Contains b (bytes_of "<BODY")
  else false.

(** [isHerokuErrPage]: the Heroku Application Error page. *)
Definition isHerokuErrPage (b : list byte) : bool :=
  if bytes_Contains b (bytes_of "www.herokucdn.com/error-pages/application-error.html") then true
  else false.

(** [isHerokuWelPage]: the Heroku Welcome page. *)
Definition isHerokuWelPage (b : list byte) : bool :=
  if bytes_Contains b (bytes_of "Welcome to your new app") then true
  else false.

(** [isAvantErrPage]: the Avant error page, with either phone number. *)
Definition isAvantErrPage (b : list byte) : bool :=
  if bytes_Contains b (bytes_of
       "We have been notified, please try again later. Have a question? Call us at 800-712-5407")
  then true
  else if bytes_Contains b (bytes_of
       "We have been notified, please try again later. Have a question? Call us at 0800 610 1516")
  then true
  else false.

(** [procApp] executes an HTTP GET on a passed Heroku app and does some
    rudimentary analysis. *)
Definition procApp (Get : string -> GetOutcome) (site : string) : M unit :=
  let tReslt := reqRslt_zero in
  let tLen := 50 in
  defer EvDone ;;;
  if len_string site =? 0 then
    WrapUp (fill tReslt site false 999 "no site name was provided")
  else
    let tURL := "http://" ++ site ++ ".herokuapp.com" in
    got <- http_Get Get tURL ;;
    match got with
    | GetFailed ferr =>
        if strings_Contains ferr "EOF" then
          WrapUp (fill tReslt site false 999 ("no response data: " ++ ferr))
        else if strings_Contains ferr "x509: certificate is valid for" then
          WrapUp (fill tReslt site false 200 ("SSL certificate error: " ++ ferr))
        else
          fmt_Printf ("ERROR: error occurred fetching: " ++ tURL ++ ". See: " ++ ferr) ;;;
          WrapUp (fill tReslt site false 999 ("error getting site response: " ++ ferr))
    | GetResponse resp =>
        defer EvClose ;;;
        rd <- ioutil_ReadAll resp ;;
        match rd with
        | (_, Some ferr) =>
            fmt_Printf ("ERROR: error occurred reading a response body for site: "
                        ++ site ++ ". See: " ++ ferr ++ String "010" "") ;;;
            WrapUp (fill tReslt site false 999 ("error reading the site response: " ++ ferr))
        | (body, None) =>
            if isAvantErrPage body then
              WrapUp (fill tReslt site false (StatusCode resp) "Avant error page")
            else if isHerokuErrPage body then
              WrapUp (fill tReslt site false (StatusCode resp) "Heroku error page")
            else if isHerokuWelPage body then
              WrapUp (fill tReslt site false (StatusCode resp) "Heroku welcome page")
            else if isHTML body then
              WrapUp (fill tReslt site true (StatusCode resp) "HTML page")
            else
              let tLen := if len_bytes body <? tLen then len_bytes body else tLen in
              pre <- lift_option (slice_to body tLen) ;;
              let tStr := "found this (first " ++ fmt_int tLen ++ " bytes): "
                          ++ string_of pre ++ "..." in
              WrapUp (fill tReslt site true (StatusCode resp) tStr)
        end
    end.

End Avant.

(** ** The dispatcher and collector: [main] *)

Definition nl : string := String "010" "".

(** The report: its header, and the row of one result,
    [fmt.Printf("%v,%v,%v,%v\n", v.App, v.Accessible, v.Status, v.Notes)]. *)
Definition header : string := "Application,Accessible,HTTP Status,Notes" ++ nl.

Definition row (v : reqRslt) : string :=
  App v ++ "," ++ fmt_bool (Accessible v) ++ "," ++ fmt_int (Status v) ++ ","
  ++ Notes v ++ nl.

(** The two programs differ in the worker they start and in the pause
    the second one takes, before the report, for a line on standard input. *)
Record Program := mkProgram {
  proc : (string -> GetOutcome) -> string -> M unit;
  pauses : bool
}.

Definition main_go : Program := {| proc := Main.procApp; pauses := false |}.
Definition avant_go : Program := {| proc := Avant.procApp; pauses := true |}.

(** Where [main] stands, after the target list [apps] has been read. The
    loop counters are Go [int]s that stay within [0 .. len(apps)]. *)
Inductive MainPC :=
| Spawning (i : nat)   (* for i < len(apps): wg.Add(1); go procApp(apps[i], chn) *)
| Waiting              (* wg.Wait() *)
| Pausing              (* for { text, _ = reader.ReadString('\n'); if len(text) != 0 { break } } *)
| Heading              (* fmt.Printf("Application,Accessible,HTTP Status,Notes\n") *)
| Draining (i : nat)   (* for i < len(apps): v := <-chn; fmt.Printf(row) *)
| Finished.

(** The state of the running program: [main], the wait group [wg], the
    channel [chn] (buffered, of capacity [len(apps)]), and for each
    goroutine started, in the order they were started, the events it has
    still to perform. [drained] records the values [main] has received,
    in the order it received them. The banners [main] prints between its
    steps carry no result and are left out of [stdout]. *)
Record State := mkState {
  pc : MainPC;
  wg : Z;
  chn : list reqRslt;
  gos : list (list Event);
  stdout : list string;
  stdin_pos : nat;
  drained : list reqRslt;
  crashed : bool
}.

Definition set_pc (p : MainPC) (s : State) : State :=
  mkState p (wg s) (chn s) (gos s) (stdout s) (stdin_pos s) (drained s) (crashed s).
Definition set_wg (n : Z) (s : State) : State :=
  mkState (pc s) n (chn s) (gos s) (stdout s) (stdin_pos s) (drained s) (crashed s).
Definition set_chn (c : list reqRslt) (s : State) : State :=
  mkState (pc s) (wg s) c (gos s) (stdout s) (stdin_pos s) (drained s) (crashed s).
Definition set_gos (g : list (list Event)) (s : State) : State :=
  mkState (pc s) (wg s) (chn s) g (stdout s) (stdin_pos s) (drained s) (crashed s).
Definition print (t : string) (s : State) : State :=
  mkState (pc s) (wg s) (chn s) (gos s) (stdout s ++ [t]) (stdin_pos s) (drained s) (crashed s).
Definition read_line (s : State) : State :=
  mkState (pc s) (wg s) (chn s) (gos s) (stdout s) (S (stdin_pos s)) (drained s) (crashed s).
Definition record_drained (v : reqRslt) (s : State) : State :=
  mkState (pc s) (wg s) (chn s) (gos s) (stdout s) (stdin_pos s) (drained s ++ [v]) (crashed s).
Definition crash (s : State) : State :=
  mkState (pc s) (wg s) (chn s) (gos s) (stdout s) (stdin_pos s) (drained s) true.

(** Who takes the next step: [main] or the [k]-th goroutine started. *)
Inductive Tid :=
| MainT
| GoT (k : nat).

Section Machine.

Variable P : Program.

(** The target list read from the input file. *)
Variable apps : list string.

(** The network: what [http.Get] returns to the [k]-th goroutine. Every
    request returns; a request that hangs for ever, against which the
    programs set no timeout, is outside the model. *)
Variable net : nat -> string -> GetOutcome.

(** Standard input: what the [n]-th call of [reader.ReadString('\n')]
    returns (the empty string once the input is exhausted). *)
Variable stdin : nat -> string.

Definition init : State :=
  {| pc := Spawning 0; wg := 0; chn := []; gos := []; stdout := [];
     stdin_pos := 0; drained := []; crashed := false |}.

(** One step of [main]; [None] when [main] is blocked or has returned. *)
Definition step_main (s : State) : option State :=
  match pc s with
  | Spawning i =>
      if (i <? length apps)%nat then
        match apps !! i with
        | Some site =>
            Some (set_pc (Spawning (S i))
                   (set_gos (gos s ++ [go (proc P (net i) site)])
                     (set_wg (wg s + 1) s)))
        | None => Some (crash s)
        end
      else Some (set_pc Waiting s)
  | Waiting =>
      if wg s =? 0 then Some (set_pc (if pauses P then Pausing else Heading) s)
      else None
  | Pausing =>
      let text := stdin (stdin_pos s) in
      if negb (len_string text =? 0) then Some (set_pc Heading (read_line s))
      else Some (read_line s)
  | Heading => Some (set_pc (Draining 0) (print header s))
  | Draining i =>
      if (i <? length apps)%nat then
        match chn s with
        | v :: rest =>
            Some (set_pc (Draining (S i))
                   (print (row v) (record_drained v (set_chn rest s))))
        | [] => None
        end
      else Some (set_pc Finished s)
  | Finished => None
  end.

(** One step of goroutine [k]: its next event. A send blocks while the
    channel is full; [wg.Done()] panics on a negative counter. *)
Definition step_go (k : nat) (s : State) : option State :=
  match gos s !! k with
  | Some (e :: es) =>
      let s' := set_gos (<[k := es]> (gos s)) s in
      match e with
      | EvSend r =>
          if (length (chn s) <? length apps)%nat then Some (set_chn (chn s ++ [r]) s')
          else None
      | EvDone =>
          if wg s - 1 <? 0 then Some (crash s') else Some (set_wg (wg s - 1) s')
      | EvPrintf t => Some (print t s')
      | EvPanic => Some (crash s')
      | EvGet _ | EvReadAll | EvLog _ | EvClose => Some s'
      end
  | Some [] | None => None
  end.

(** The scheduler's choice; a crashed program takes no step. *)
Definition sched (t : Tid) (s : State) : option State :=
  if crashed s then None
  else match t with
       | MainT => step_main s
       | GoT k => step_go k s
       end.

Definition step (s s' : State) : Prop := exists t, sched t s = Some s'.

Inductive reachable : State -> Prop :=
| reachable_init : reachable init
| reachable_step s s' : reachable s -> step s s' -> reachable s'.

(** Running a schedule; a choice that cannot step is skipped. *)
Fixpoint run (sch : list Tid) (s : State) : State :=
  match sch with
  | [] => s
  | t :: sch' =>
      match sched t s with
      | Some s' => run sch' s'
      | None => run sch' s
      end
  end.

End Machine.

(** * Notions used to state the properties *)

(** The clamp of [tLen]: the preview length is [min 50 (len body)], and
    the slice expression [body[:tLen]] is in range. *)
Definition clamp (body : list byte) : Z :=
  if len_bytes body <? 50 then len_bytes body else 50.

(** The URL the worker requests for a site. *)
Definition url_of (site : string) : string := "http://" ++ site ++ ".herokuapp.com".

(** The preview note of the fallback rule. *)
Definition preview (body : list byte) : string :=
  "found this (first " ++ fmt_int (clamp body) ++ " bytes): "
  ++ string_of (take (Z.to_nat (clamp body)) body) ++ "...".

(** What the second program decides from a body it has read. *)
Definition avant_verdict (site : string) (code : Z) (body : list byte) : reqRslt :=
  if Avant.isAvantErrPage body then mkReqRslt site false code "Avant error page"
  else if Avant.isHerokuErrPage body then mkReqRslt site false code "Heroku error page"
  else if Avant.isHerokuWelPage body then mkReqRslt site false code "Heroku welcome page"
  else if Avant.isHTML body then mkReqRslt site true code "HTML page"
  else mkReqRslt site true code (preview body).

(** What the program of [main.go] decides from a body it has read. *)
Definition main_verdict (site : string) (code : Z) (body : list byte) : reqRslt :=
  if Main.isHerokuPage body then
    mkReqRslt site false code "Heroku welcome or application error page"
  else if Main.isHTML body then mkReqRslt site true code "HTML page"
  else mkReqRslt site true code (preview body).

(** The markers the classifier looks for. *)
Definition welcome_marker : string := "Welcome to your new app".
Definition heroku_error_marker : string :=
  "www.herokucdn.com/error-pages/application-error.html".
Definition avant_marker_us : string :=
  "We have been notified, please try again later. Have a question? Call us at 800-712-5407".
Definition avant_marker_uk : string :=
  "We have been notified, please try again later. Have a question? Call us at 0800 610 1516".

(** [has body m]: the text [m] occurs in the body. *)
Definition has (body : list byte) (m : string) : bool := bytes_Contains body (bytes_of m).

(** The body carries none of the error-page markers that are looked for
    before the welcome marker. *)
Definition no_error_marker (body : list byte) : Prop :=
  has body avant_marker_us = false /\ has body avant_marker_uk = false /\
  has body heroku_error_marker = false.

(** The body carries no platform marker at all. *)
Definition no_marker (body : list byte) : Prop :=
  no_error_marker body /\ has body welcome_marker = false.

(** The two spellings of each tag that [isHTML] looks for. *)
Definition html_tags (body : list byte) : Prop :=
  (has body "<html" = true \/ has body "<HTML" = true) /\
  (has body "<body" = true \/ has body "<BODY" = true).

(** Spec-side notion, for comparison with [html_tags]: the text [m]
    occurs in the body in some spelling, upper or lower case letter by
    letter. *)
Definition lower (c : byte) : byte :=
  let n := Byte.to_N c in
  if ((65 <=? n) && (n <=? 90))%N then
    match Byte.of_N (n + 32) with
    | Some c' => c'
    | None => c
    end
  else c.

Definition has_nocase (body : list byte) (m : string) : bool :=
  bytes_Contains (lower <$> body) (lower <$> bytes_of m).

(** The events that touch the channel, the wait group or the life of the
    program. *)
Definition is_sync (e : Event) : bool :=
  match e with
  | EvSend _ | EvDone | EvPanic => true
  | EvGet _ | EvReadAll | EvPrintf _ | EvLog _ | EvClose => false
  end.

Fixpoint syncs (es : list Event) : list Event :=
  match es with
  | [] => []
  | e :: es' => if is_sync e then e :: syncs es' else syncs es'
  end.

(** A run for [site] that sends one result, for that site, then signals
    [wg.Done()] as its last event, and never panics. *)
Definition one_result (site : string) (es : list Event) : Prop :=
  exists r, syncs es = [EvSend r; EvDone] /\ App r = site /\ sent_result es = Some r /\
            last es = Some EvDone.

(** A goroutine that has not sent yet; one that has still to signal
    [wg.Done()]. *)
Definition unsent (es : list Event) : bool :=
  match syncs es with
  | EvSend _ :: _ => true
  | _ => false
  end.

Definition undone (es : list Event) : nat :=
  match syncs es with
  | [] => 0
  | _ :: _ => 1
  end.

(** The number of goroutines that have still to signal [wg.Done()]. *)
Definition pending (gs : list (list Event)) : nat := sum_list_with undone gs.

(** The sites of the goroutines that have sent, in the order of [apps]. *)
Fixpoint sent_sites (apps : list string) (gs : list (list Event)) : list string :=
  match apps, gs with
  | a :: apps', es :: gs' =>
      if unsent es then sent_sites apps' gs' else a :: sent_sites apps' gs'
  | _, _ => []
  end.

(** What is left of a worker's run for [site]: all of it from some point
    before the send, from some point between the send and [wg.Done()], or
    nothing. *)
Inductive stage (site : string) : list Event -> Prop :=
| stage_unsent es r :
    syncs es = [EvSend r; EvDone] -> App r = site -> last es = Some EvDone ->
    stage site es
| stage_sent es :
    syncs es = [EvDone] -> last es = Some EvDone -> stage site es
| stage_exited : stage site [].

(** ** The invariant of the running program *)

Section InvariantDefs.

Variable P : Program.
Variable apps : list string.
Variable net : nat -> string -> GetOutcome.

(** A call of [ReadString] that returns a line, when the program pauses
    for one. *)
Variable K : nat.

(** The number of goroutines started when [main] stands at a point. *)
Definition spawned (p : MainPC) : nat :=
  match p with
  | Spawning i => i
  | _ => length apps
  end.

(** The text of the report once the header is out: whatever was
    printed before, the header, and a row per value received. *)
Definition report_printed (s : State) : Prop :=
  exists pre, stdout s = (pre ++ header :: (row <$> drained s))%list.

Definition pc_inv (s : State) : Prop :=
  match pc s with
  | Spawning i => (i <= length apps)%nat /\ drained s = []
  | Waiting => drained s = []
  | Pausing | Heading => wg s = 0 /\ drained s = []
  | Draining i =>
      wg s = 0 /\ length (drained s) = i /\ (i <= length apps)%nat /\ report_printed s
  | Finished =>
      wg s = 0 /\ length (drained s) = length apps /\ report_printed s
  end.

Record Inv (s : State) : Prop := mkInv {
  inv_alive : crashed s = false;
  inv_spawned : length (gos s) = spawned (pc s);
  inv_stage : forall k es,
    gos s !! k = Some es -> exists site, apps !! k = Some site /\ stage site es;
  inv_wg : wg s = Z.of_nat (pending (gos s));
  inv_sent : App <$> (drained s ++ chn s)%list ≡ₚ sent_sites apps (gos s);
  inv_pc : pc_inv s
}.

(** The steps the goroutines not yet started will take, and the step
    that starts each. *)
Fixpoint todo (k : nat) (l : list string) : nat :=
  match l with
  | [] => 0
  | a :: l' => S (length (go (proc P (net k) a))) + todo (S k) l'
  end.

Definition main_left (s : State) : nat :=
  match pc s with
  | Spawning i => todo i (drop i apps) + (K + 1 - stdin_pos s) + length apps + 5
  | Waiting => (K + 1 - stdin_pos s) + length apps + 4
  | Pausing => (K + 1 - stdin_pos s) + length apps + 3
  | Heading => length apps + 2
  | Draining i => (length apps - i) + 1
  | Finished => 0
  end%nat.

(** An upper bound on the number of steps the program can still take. *)
Definition fuel (s : State) : nat :=
  (main_left s + sum_list_with length (gos s))%nat.

Definition pos_inv (s : State) : Prop :=
  match pc s with
  | Spawning _ | Waiting => stdin_pos s = 0%nat
  | Pausing => pauses P = true /\ (stdin_pos s <= K)%nat
  | _ => True
  end.

End InvariantDefs.

(** ** Further notions: the worker's other effects *)

(** The number of times a goroutine closes a response body. *)
Fixpoint closes (es : list Event) : nat :=
  match es with
  | [] => 0
  | EvClose :: es' => S (closes es')
  | _ :: es' => closes es'
  end.

(** What a goroutine prints on standard output. *)
Fixpoint prints (es : list Event) : list string :=
  match es with
  | [] => []
  | EvPrintf t :: es' => t :: prints es'
  | _ :: es' => prints es'
  end.

(** The body carries one of the two markers the program of [main.go]
    looks for. *)
Definition heroku_marker (body : list byte) : bool :=
  has body heroku_error_marker || has body welcome_marker.

(** The body carries one of the four markers the second program looks
    for. *)
Definition any_marker (body : list byte) : bool :=
  has body avant_marker_us || has body avant_marker_uk ||
  has body heroku_error_marker || has body welcome_marker.

(** ** Further notions: the running program *)

Section Deliveries.

Variable P : Program.
Variable apps : list string.
Variable net : nat -> string -> GetOutcome.
Variable stdin : nat -> string.

(** The result the [k]-th goroutine, started for [site], sends. *)
Definition result_of (k : nat) (site : string) : option reqRslt :=
  sent_result (go (proc P (net k) site)).

(** The results of the goroutines that have sent, from the [k]-th on, in
    the order of [apps]. *)
Fixpoint delivered_from (k : nat) (l : list string) (gs : list (list Event))
    : list (option reqRslt) :=
  match l, gs with
  | a :: l', es :: gs' =>
      if unsent es then delivered_from (S k) l' gs'
      else result_of k a :: delivered_from (S k) l' gs'
  | _, _ => []
  end.

(** What the channel and [main] hold are the results of the goroutines
    that have sent, and a goroutine that has not sent will send the
    result of its run. *)
Definition deliveries_inv (s : State) : Prop :=
  Some <$> (drained s ++ chn s)%list ≡ₚ delivered_from 0 apps (gos s) /\
  forall k es site,
    gos s !! k = Some es -> apps !! k = Some site -> unsent es = true ->
    sent_result es = result_of k site.

(** What the step of [t] puts on the channel. *)
Definition sent_by (t : Tid) (s : State) : list reqRslt :=
  match t with
  | MainT => []
  | GoT k =>
      match gos s !! k with
      | Some (EvSend r :: _) => [r]
      | _ => []
      end
  end.

(** The results put on the channel while a schedule runs, in the order
    of the sends. *)
Fixpoint sends (sch : list Tid) (s : State) : list reqRslt :=
  match sch with
  | [] => []
  | t :: sch' =>
      match sched P apps net stdin t s with
      | Some s' => sent_by t s ++ sends sch' s'
      | None => sends sch' s
      end
  end.

End Deliveries.

(** A line of the workers' error messages. *)
Definition error_line (l : string) : Prop := String.prefix "ERROR: " l = true.

(** Standard output when the workers print lines of [Q] only: such
    lines before the header; from the header on, such lines, then the
    header and a row per value received. *)
Definition stdout_inv (Q : string -> Prop) (s : State) : Prop :=
  Forall (fun es => Forall Q (prints es)) (gos s) /\
  match pc s with
  | Draining _ | Finished =>
      exists pre, Forall Q pre /\ stdout s = (pre ++ header :: (row <$> drained s))%list
  | _ => Forall Q (stdout s)
  end.

(** ** The start of [main]: arguments and input file *)

(** An input file as the scanner sees it: the lines [scnr.Scan()] yields
    one after the other, and what [scnr.Err()] reports when it stops
    ([nil] at the end of the file). *)
Record File := mkFile {
  scanned : list string;
  scan_error : error
}.

(** How the start of [main] ends: [os.Exit(code)] (a panic exits with
    status 2), or the target list to probe. *)
Inductive Startup :=
| Exit (code : Z)
| Proceed (apps : list string).

(** The verb [%v] on an [error]. *)
Definition fmt_error (e : error) : string :=
  match e with
  | Some msg => msg
  | None => "<nil>"
  end.

(** The loop [for scnr.Scan() { apps = append(apps, scnr.Text()) }]. *)
Fixpoint scan_loop (tokens : list string) (apps : list string) : list string :=
  match tokens with
  | [] => apps
  | t :: tokens' => scan_loop tokens' (apps ++ [t])
  end.

Definition stars : string := "*********************************".
Definition dashes : string := "---------------------------------".

(** The start of [main] in the second program: what it prints on
    standard output, and how it ends. [os_Open] is the file system. The
    package variable [err] holds the error of [os.Open]. *)
Definition avant_startup (args : list string) (os_Open : string -> File + string)
    : list string * Startup :=
  let out := [nl ++ nl ++ stars ++ nl ++ "INFO: Start processing job" ++ nl
              ++ dashes ++ nl ++ nl] in
  if negb (Z.of_nat (length args) =? 2) then
    (let msg := "ERROR: Missing filename parameter" ++ nl in (out ++ [msg])%list, Exit 1)
  else
    match args !! 1%nat with
    | None => (out, Exit 2)
    | Some path =>
        match os_Open path with
        | inr e =>
            let err : error := Some e in
            (let msg := "ERROR: error occurred opening input file. See: "
                      ++ fmt_error err ++ nl in (out ++ [msg])%list, Exit 1)
        | inl inFile =>
            let err : error := None in
            let apps := scan_loop (scanned inFile) [] in
            match scan_error inFile with
            | Some _ =>
                (let msg := "ERROR: error reading the input file. See: "
                          ++ fmt_error err ++ nl in (out ++ [msg])%list, Exit 1)
            | None =>
                (let msg := stars ++ nl ++ "INFO: Read in "
                          ++ fmt_int (Z.of_nat (length apps)) ++ " URLS to fetch" ++ nl
                          ++ dashes ++ nl ++ nl in (out ++ [msg])%list, Proceed apps)
            end
        end
    end.

(** The start of [main] in the program of [main.go]: what it writes on
    the log (without the time stamps), and how it ends; [log.Fatalln]
    and [log.Fatalf] exit with status 1. *)
Definition main_startup (args : list string) (os_Open : string -> File + string)
    : list string * Startup :=
  let out := ["INFO: start processing..." ++ nl] in
  if negb (Z.of_nat (length args) =? 2) then
    (let msg := "END: Missing filename parameter" ++ nl in (out ++ [msg])%list, Exit 1)
  else
    match args !! 1%nat with
    | None => (out, Exit 2)
    | Some path =>
        match os_Open path with
        | inr e =>
            let err : error := Some e in
            (let msg := "ERROR: error occurred opening input file. See: "
                      ++ fmt_error err ++ nl in (out ++ [msg])%list, Exit 1)
        | inl inFile =>
            let err : error := None in
            let apps := scan_loop (scanned inFile) [] in
            match scan_error inFile with
            | Some _ =>
                (let msg := "ERROR: error reading the input file. See: "
                          ++ fmt_error err ++ nl in (out ++ [msg])%list, Exit 1)
            | None => (out, Proceed apps)
            end
        end
    end.

(** The start of a program. *)
Definition startup (P : Program) : list string -> (string -> File + string)
                                   -> list string * Startup :=
  if pauses P then avant_startup else main_startup.

(** * Properties *)

(** ** Substring search *)

Lemma bytes_HasPrefix_spec (s prefix : list byte) :
  bytes_HasPrefix s prefix = true <-> exists post, s = (prefix ++ post)%list.
Proof.
  revert s. induction prefix as [|p prefix IH]; intros s; simpl.
  - split; [intros _; by exists s | done].
  - destruct s as [|c s].
    + split; [done | intros [post Hpost]; discriminate].
    + rewrite andb_true_iff, IH. split.
      * intros [Hc [post ->]]. apply byte_dec_bl in Hc as ->. by exists post.
      * intros [post Hpost]. injection Hpost as -> ->.
        split; [by apply byte_dec_lb | by exists post].
Qed.

(** [bytes.Contains] finds exactly the occurrences of the sub-slice. *)
Lemma bytes_Contains_spec (b sub : list byte) :
  bytes_Contains b sub = true <-> exists pre post, b = (pre ++ sub ++ post)%list.
Proof.
  induction b as [|c b IH]; simpl.
  - rewrite orb_false_r, bytes_HasPrefix_spec. split.
    + intros [post H]. by exists [], post.
    + intros [pre [post H]]. destruct pre; [by exists post | discriminate].
  - rewrite orb_true_iff, bytes_HasPrefix_spec, IH. split.
    + intros [[post H] | [pre [post H]]].
      * by exists [], post.
      * exists (c :: pre), post. by rewrite H.
    + intros [pre [post H]]. destruct pre as [|c' pre]; simpl in H.
      * left. by exists post.
      * right. injection H as -> ->. by exists pre, post.
Qed.

Lemma len_string_zero (s : string) : (len_string s =? 0) = true <-> s = "".
Proof.
  unfold len_string. rewrite Z.eqb_eq. destruct s; simpl; split; (done || lia).
Qed.

Lemma len_string_nonzero (s : string) : s <> "" -> (len_string s =? 0) = false.
Proof.
  intros Hs. destruct (len_string s =? 0) eqn:E; [|done].
  by apply len_string_zero in E.
Qed.

Lemma clamp_min (body : list byte) : clamp body = Z.min 50 (len_bytes body).
Proof. unfold clamp. destruct (Z.ltb_spec (len_bytes body) 50); lia. Qed.

Lemma slice_to_clamp (body : list byte) :
  slice_to body (clamp body) = Some (take (Z.to_nat (clamp body)) body).
Proof.
  unfold slice_to. rewrite clamp_min. unfold len_bytes.
  destruct (Z.leb_spec 0 (Z.min 50 (Z.of_nat (length body)))); [|lia].
  destruct (Z.leb_spec (Z.min 50 (Z.of_nat (length body))) (Z.of_nat (length body))); [done|lia].
Qed.

(** ** The worker, case by case *)

Lemma avant_empty_site Get :
  go (Avant.procApp Get "") =
  [EvSend (mkReqRslt "" false 999 "no site name was provided"); EvDone].
Proof. reflexivity. Qed.

Lemma main_empty_site Get :
  go (Main.procApp Get "") =
  [EvSend (mkReqRslt "" false 999 "no site name was provided"); EvDone].
Proof. reflexivity. Qed.

#[local] Arguments String.append : simpl never.
#[local] Arguments strings_Contains : simpl never.
#[local] Arguments bytes_Contains : simpl never.
#[local] Arguments len_string : simpl never.
#[local] Arguments len_bytes : simpl never.
#[local] Arguments slice_to : simpl never.
#[local] Arguments fmt_int : simpl never.

Ltac enter_procApp Hs :=
  unfold go, Avant.procApp, Main.procApp, bind, defer; simpl;
  rewrite (len_string_nonzero _ Hs);
  unfold http_Get, ioutil_ReadAll, WrapUp, fmt_Printf, log_Printf, bind, emit, ret; simpl.

Lemma avant_get_failed Get site ferr :
  site <> "" -> Get (url_of site) = GetFailed ferr ->
  go (Avant.procApp Get site) =
  if strings_Contains ferr "EOF" then
    [EvGet (url_of site);
     EvSend (mkReqRslt site false 999 ("no response data: " ++ ferr)); EvDone]
  else if strings_Contains ferr "x509: certificate is valid for" then
    [EvGet (url_of site);
     EvSend (mkReqRslt site false 200 ("SSL certificate error: " ++ ferr)); EvDone]
  else
    [EvGet (url_of site);
     EvPrintf ("ERROR: error occurred fetching: " ++ url_of site ++ ". See: " ++ ferr);
     EvSend (mkReqRslt site false 999 ("error getting site response: " ++ ferr)); EvDone].
Proof.
  intros Hs HG. enter_procApp Hs. fold (url_of site). rewrite HG. simpl.
  destruct (strings_Contains ferr "EOF"); [done|].
  destruct (strings_Contains ferr "x509: certificate is valid for"); done.
Qed.

Lemma avant_read_failed Get site code data ferr :
  site <> "" -> Get (url_of site) = GetResponse (mkResponse code (data, Some ferr)) ->
  go (Avant.procApp Get site) =
  [EvGet (url_of site); EvReadAll;
   EvPrintf ("ERROR: error occurred reading a response body for site: "
             ++ site ++ ". See: " ++ ferr ++ nl);
   EvSend (mkReqRslt site false 999 ("error reading the site response: " ++ ferr));
   EvClose; EvDone].
Proof.
  intros Hs HG. enter_procApp Hs. fold (url_of site). rewrite HG. reflexivity.
Qed.

Lemma avant_read_ok Get site code body :
  site <> "" -> Get (url_of site) = GetResponse (mkResponse code (body, None)) ->
  go (Avant.procApp Get site) =
  [EvGet (url_of site); EvReadAll; EvSend (avant_verdict site code body); EvClose; EvDone].
Proof.
  intros Hs HG. enter_procApp Hs. fold (url_of site). rewrite HG. simpl.
  unfold avant_verdict.
  destruct (Avant.isAvantErrPage body); [done|].
  destruct (Avant.isHerokuErrPage body); [done|].
  destruct (Avant.isHerokuWelPage body); [done|].
  destruct (Avant.isHTML body); [done|].
  fold (clamp body). rewrite slice_to_clamp. reflexivity.
Qed.

Lemma main_get_failed Get site ferr :
  site <> "" -> Get (url_of site) = GetFailed ferr ->
  go (Main.procApp Get site) =
  [EvGet (url_of site);
   EvLog ("ERROR: error occurred fetching: " ++ url_of site ++ ". See: " ++ ferr);
   EvSend (mkReqRslt site false 999 ("error getting site response: " ++ ferr)); EvDone].
Proof.
  intros Hs HG. enter_procApp Hs. fold (url_of site). rewrite HG. reflexivity.
Qed.

Lemma main_read_failed Get site code data ferr :
  site <> "" -> Get (url_of site) = GetResponse (mkResponse code (data, Some ferr)) ->
  go (Main.procApp Get site) =
  [EvGet (url_of site); EvReadAll;
   EvLog ("ERROR: error occurred reading a response body for site: "
          ++ site ++ ". See: " ++ ferr ++ nl);
   EvSend (mkReqRslt site false 999 ("error reading the site response: " ++ ferr));
   EvClose; EvDone].
Proof.
  intros Hs HG. enter_procApp Hs. fold (url_of site). rewrite HG. reflexivity.
Qed.

Lemma main_read_ok Get site code body :
  site <> "" -> Get (url_of site) = GetResponse (mkResponse code (body, None)) ->
  go (Main.procApp Get site) =
  [EvGet (url_of site); EvReadAll; EvSend (main_verdict site code body); EvClose; EvDone].
Proof.
  intros Hs HG. enter_procApp Hs. fold (url_of site). rewrite HG. simpl.
  unfold main_verdict.
  destruct (Main.isHerokuPage body); [done|].
  destruct (Main.isHTML body); [done|].
  fold (clamp body). rewrite slice_to_clamp. reflexivity.
Qed.

(** ** The markers *)

Lemma isAvantErrPage_has body :
  Avant.isAvantErrPage body = has body avant_marker_us || has body avant_marker_uk.
Proof.
  unfold Avant.isAvantErrPage, has, avant_marker_us, avant_marker_uk.
  do 2 destruct (bytes_Contains _ _); reflexivity.
Qed.

Lemma isHerokuErrPage_has body : Avant.isHerokuErrPage body = has body heroku_error_marker.
Proof.
  unfold Avant.isHerokuErrPage, has, heroku_error_marker.
  destruct (bytes_Contains _ _); reflexivity.
Qed.

Lemma isHerokuWelPage_has body : Avant.isHerokuWelPage body = has body welcome_marker.
Proof.
  unfold Avant.isHerokuWelPage, has, welcome_marker.
  destruct (bytes_Contains _ _); reflexivity.
Qed.

Lemma isHerokuPage_has body :
  Main.isHerokuPage body = has body heroku_error_marker || has body welcome_marker.
Proof.
  unfold Main.isHerokuPage, has, heroku_error_marker, welcome_marker.
  do 2 destruct (bytes_Contains _ _); reflexivity.
Qed.

Lemma isHTML_has body :
  Avant.isHTML body =
  (has body "<html" || has body "<HTML") && (has body "<body" || has body "<BODY").
Proof.
  unfold Avant.isHTML, has. destruct (_ || _); reflexivity.
Qed.

Lemma main_isHTML_has body : Main.isHTML body = Avant.isHTML body.
Proof. reflexivity. Qed.

Lemma isHTML_tags body : Avant.isHTML body = true <-> html_tags body.
Proof.
  rewrite isHTML_has, andb_true_iff, !orb_true_iff. reflexivity.
Qed.

Lemma no_error_marker_checks body :
  no_error_marker body ->
  Avant.isAvantErrPage body = false /\ Avant.isHerokuErrPage body = false.
Proof.
  intros (H1 & H2 & H3).
  by rewrite isAvantErrPage_has, isHerokuErrPage_has, H1, H2, H3.
Qed.

(** ** The empty target *)

(** C2. For the empty target identifier the worker sends the result
    (reachable=false, status=999, notes "no site name was provided") and
    issues no request: its whole run is that send and [wg.Done()], whatever
    the network would have answered. Both programs. *)
Theorem empty_target_short_circuit (Get : string -> GetOutcome) :
  let r := mkReqRslt "" false 999 "no site name was provided" in
  go (Avant.procApp Get "") = [EvSend r; EvDone] /\
  requests (go (Avant.procApp Get "")) = [] /\
  go (Main.procApp Get "") = [EvSend r; EvDone] /\
  requests (go (Main.procApp Get "")) = [].
Proof. repeat split. Qed.

(** ** Marker pages and HTML pages *)

(** The welcome marker together with an Avant marker: the Avant rule,
    looked at first, gives the note. *)
Lemma welcome_with_avant_marker :
  let body := bytes_of ("<html><body>Welcome to your new app. " ++ avant_marker_us
                        ++ "</body></html>") in
  let Get := fun _ => GetResponse (mkResponse 503 (body, None)) in
  has body welcome_marker = true /\
  sent_result (go (Avant.procApp Get "shop")) =
    Some (mkReqRslt "shop" false 503 "Avant error page") /\
  "Avant error page" <> "Heroku welcome page".
Proof. vm_compute. repeat split; discriminate. Qed.

(** C3, amended. A body with the welcome marker and none of the error
    markers looked for before it is reported unreachable with the note
    "Heroku welcome page" and the response's status, whether or not the
    body also has the [<html] and [<body] tags. With an error marker too
    the result is still unreachable, and the note names the error page
    matched first: "Avant error page" when the body has an Avant marker,
    else "Heroku error page" when it has the Heroku error marker. The
    program of [main.go] has one note for both Heroku markers. *)
Theorem welcome_page_before_html Get site code body :
  site <> "" ->
  Get (url_of site) = GetResponse (mkResponse code (body, None)) ->
  has body welcome_marker = true ->
  (no_error_marker body ->
   go (Avant.procApp Get site) =
   [EvGet (url_of site); EvReadAll;
    EvSend (mkReqRslt site false code "Heroku welcome page"); EvClose; EvDone]) /\
  (has body avant_marker_us = true \/ has body avant_marker_uk = true ->
   go (Avant.procApp Get site) =
   [EvGet (url_of site); EvReadAll;
    EvSend (mkReqRslt site false code "Avant error page"); EvClose; EvDone]) /\
  (has body avant_marker_us = false -> has body avant_marker_uk = false ->
   has body heroku_error_marker = true ->
   go (Avant.procApp Get site) =
   [EvGet (url_of site); EvReadAll;
    EvSend (mkReqRslt site false code "Heroku error page"); EvClose; EvDone]) /\
  go (Main.procApp Get site) =
  [EvGet (url_of site); EvReadAll;
   EvSend (mkReqRslt site false code "Heroku welcome or application error page");
   EvClose; EvDone].
Proof.
  intros Hs HG Hw.
  rewrite (avant_read_ok _ _ _ _ Hs HG), (main_read_ok _ _ _ _ Hs HG).
  unfold avant_verdict, main_verdict.
  rewrite isHerokuPage_has, isHerokuWelPage_has, isAvantErrPage_has,
    isHerokuErrPage_has, Hw, orb_true_r.
  split; [|split; [|split; [|done]]].
  - intros (-> & -> & ->). done.
  - intros [-> | ->]; by rewrite ?orb_true_r.
  - intros -> -> ->. done.
Qed.

Lemma welcome_page_before_html_witness :
  let body := bytes_of "<html><body>Welcome to your new app</body></html>" in
  let Get := fun _ => GetResponse (mkResponse 200 (body, None)) in
  html_tags body /\
  go (Avant.procApp Get "shop") =
  [EvGet (url_of "shop"); EvReadAll;
   EvSend (mkReqRslt "shop" false 200 "Heroku welcome page"); EvClose; EvDone].
Proof.
  intros body Get. split.
  - split; left; vm_compute; reflexivity.
  - refine (proj1 (welcome_page_before_html Get "shop" 200 body _ _ _) _).
    + discriminate.
    + reflexivity.
    + vm_compute; reflexivity.
    + repeat split; vm_compute; reflexivity.
Defined.

(** A mixed-case [<Html] tag is none of the spellings [isHTML] looks
    for: the body falls through to the preview rule. *)
Lemma mixed_case_html_tag :
  let body := bytes_of "<Html><body>hello</body></Html>" in
  let Get := fun _ => GetResponse (mkResponse 200 (body, None)) in
  has_nocase body "<html" = true /\ has body "<body" = true /\ no_marker body /\
  sent_result (go (Avant.procApp Get "shop")) =
    Some (mkReqRslt "shop" true 200
            "found this (first 31 bytes): <Html><body>hello</body></Html>...") /\
  "found this (first 31 bytes): <Html><body>hello</body></Html>..." <> "HTML page".
Proof. vm_compute. repeat split; discriminate. Qed.

(** C4, amended. A body with the tag [<html] or [<HTML], the tag [<body]
    or [<BODY], and no platform marker is reported reachable with the
    note "HTML page" and the status code of the response. Both
    programs. *)
Theorem html_page_verdict Get site code body :
  site <> "" ->
  Get (url_of site) = GetResponse (mkResponse code (body, None)) ->
  html_tags body -> no_marker body ->
  go (Avant.procApp Get site) =
  [EvGet (url_of site); EvReadAll; EvSend (mkReqRslt site true code "HTML page");
   EvClose; EvDone] /\
  go (Main.procApp Get site) =
  [EvGet (url_of site); EvReadAll; EvSend (mkReqRslt site true code "HTML page");
   EvClose; EvDone].
Proof.
  intros Hs HG Htags [Herr Hw].
  rewrite (avant_read_ok _ _ _ _ Hs HG), (main_read_ok _ _ _ _ Hs HG).
  unfold avant_verdict, main_verdict.
  change (Main.isHTML body) with (Avant.isHTML body).
  rewrite isHerokuPage_has, isHerokuWelPage_has, Hw.
  pose proof (no_error_marker_checks _ Herr) as [-> ->].
  destruct Herr as (_ & _ & ->). apply isHTML_tags in Htags as ->. done.
Qed.

Lemma html_page_verdict_witness :
  let body := bytes_of "<HTML><BODY>hello</BODY></HTML>" in
  let Get := fun _ => GetResponse (mkResponse 404 (body, None)) in
  go (Avant.procApp Get "shop") =
  [EvGet (url_of "shop"); EvReadAll; EvSend (mkReqRslt "shop" true 404 "HTML page");
   EvClose; EvDone].
Proof.
  intros body Get.
  refine (proj1 (html_page_verdict Get "shop" 404 body _ _ _ _)).
  - discriminate.
  - reflexivity.
  - split; right; vm_compute; reflexivity.
  - repeat split; vm_compute; reflexivity.
Defined.

(** ** The preview rule *)

(** C5. A body with no marker that is not an HTML page is reported
    reachable, and its note is the first [min 50 (len body)] bytes of the
    body as text, after the label that gives that length and before the
    ellipsis "...": all 10 bytes of a body of length 10, the first 50
    bytes of a body of length 1000. Both programs. *)
Theorem preview_verdict Get site code body :
  site <> "" ->
  Get (url_of site) = GetResponse (mkResponse code (body, None)) ->
  no_marker body -> Avant.isHTML body = false ->
  let n := Z.min 50 (len_bytes body) in
  let nts := "found this (first " ++ fmt_int n ++ " bytes): "
             ++ string_of (take (Z.to_nat n) body) ++ "..." in
  go (Avant.procApp Get site) =
    [EvGet (url_of site); EvReadAll; EvSend (mkReqRslt site true code nts);
     EvClose; EvDone] /\
  go (Main.procApp Get site) =
    [EvGet (url_of site); EvReadAll; EvSend (mkReqRslt site true code nts);
     EvClose; EvDone] /\
  (length body = 10%nat ->
   nts = "found this (first 10 bytes): " ++ string_of body ++ "...") /\
  (length body = 1000%nat ->
   nts = "found this (first 50 bytes): " ++ string_of (take 50 body) ++ "...").
Proof.
  intros Hs HG [Herr Hw] Hh n nts.
  rewrite (avant_read_ok _ _ _ _ Hs HG), (main_read_ok _ _ _ _ Hs HG).
  unfold avant_verdict, main_verdict.
  change (Main.isHTML body) with (Avant.isHTML body).
  rewrite isHerokuPage_has, isHerokuWelPage_has, Hw, Hh.
  pose proof (no_error_marker_checks _ Herr) as [-> ->].
  destruct Herr as (_ & _ & ->). simpl.
  unfold preview. rewrite clamp_min. fold n. fold nts.
  repeat split.
  - intros Hl. unfold nts, n, len_bytes. rewrite Hl.
    change (50 `min` Z.of_nat 10) with 10.
    replace (take (Z.to_nat 10) body) with body; [reflexivity|].
    symmetry. apply take_ge. lia.
  - intros Hl. unfold nts, n, len_bytes. rewrite Hl. reflexivity.
Qed.

Lemma preview_verdict_witness :
  let body := bytes_of "0123456789" in
  let Get := fun _ => GetResponse (mkResponse 200 (body, None)) in
  go (Avant.procApp Get "shop") =
  [EvGet (url_of "shop"); EvReadAll;
   EvSend (mkReqRslt "shop" true 200 "found this (first 10 bytes): 0123456789...");
   EvClose; EvDone].
Proof.
  intros body Get.
  refine (proj1 (preview_verdict Get "shop" 200 body _ _ _ _)).
  - discriminate.
  - reflexivity.
  - repeat split; vm_compute; reflexivity.
  - vm_compute; reflexivity.
Defined.

(** ** Transport failures *)

(** In the program of [main.go] a certificate failure is reported with
    status 999, not 200. *)
Lemma main_certificate_failure_status :
  let ferr := "x509: certificate is valid for *.herokuapp.com, not shop.example.com" in
  strings_Contains ferr "x509: certificate is valid for" = true /\
  exists r,
    sent_result (go (Main.procApp (fun _ => GetFailed ferr) "shop")) = Some r /\
    Status r = 999 /\ Status r <> 200.
Proof. split; [vm_compute; reflexivity|]. eexists. vm_compute. repeat split; discriminate. Qed.

(** C6, amended. When [http.Get] fails, the second program tries its
    rules in this order: a message with "EOF" gives status 999; else a
    message with the certificate marker gives status 200; any other
    message gives status 999. The program of [main.go] has neither the
    EOF rule nor the certificate rule: every failure gives status 999
    there. In both programs the result is unreachable, its note ends with
    the error message as it came, and the worker stops after its send:
    one call of [http.Get], no second try. *)
Theorem transport_failure_rules Get site ferr :
  site <> "" ->
  Get (url_of site) = GetFailed ferr ->
  let status :=
    if strings_Contains ferr "EOF" then 999
    else if strings_Contains ferr "x509: certificate is valid for" then 200
    else 999 in
  let label :=
    if strings_Contains ferr "EOF" then "no response data: "
    else if strings_Contains ferr "x509: certificate is valid for" then "SSL certificate error: "
    else "error getting site response: " in
  sent_result (go (Avant.procApp Get site)) = Some (mkReqRslt site false status (label ++ ferr)) /\
  requests (go (Avant.procApp Get site)) = [url_of site] /\
  (exists said,
    go (Avant.procApp Get site) =
    (EvGet (url_of site) :: said ++
     [EvSend (mkReqRslt site false status (label ++ ferr)); EvDone])%list /\
    Forall (fun e => exists t, e = EvPrintf t) said) /\
  sent_result (go (Main.procApp Get site)) =
    Some (mkReqRslt site false 999 ("error getting site response: " ++ ferr)) /\
  requests (go (Main.procApp Get site)) = [url_of site] /\
  exists logged,
    go (Main.procApp Get site) =
    [EvGet (url_of site); EvLog logged;
     EvSend (mkReqRslt site false 999 ("error getting site response: " ++ ferr)); EvDone].
Proof.
  intros Hs HG status label. subst status label.
  rewrite (avant_get_failed _ _ _ Hs HG), (main_get_failed _ _ _ Hs HG).
  destruct (strings_Contains ferr "EOF");
    [|destruct (strings_Contains ferr "x509: certificate is valid for")].
  - repeat split; [|by eexists]. exists []. split; [done | constructor].
  - repeat split; [|by eexists]. exists []. split; [done | constructor].
  - repeat split; [|by eexists]. eexists [_]. split; [done|].
    repeat constructor. by eexists.
Qed.

Lemma transport_failure_rules_witness :
  let ferr := "x509: certificate is valid for *.herokuapp.com, not shop.example.com" in
  sent_result (go (Avant.procApp (fun _ => GetFailed ferr) "shop")) =
  Some (mkReqRslt "shop" false 200 ("SSL certificate error: " ++ ferr)).
Proof.
  intros ferr.
  refine (proj1 (transport_failure_rules (fun _ => GetFailed ferr) "shop" ferr _ _)).
  - discriminate.
  - reflexivity.
Defined.

(** C10. A message with both "EOF" and the certificate marker is taken
    by the EOF rule, which is tried first: unreachable, status 999, note
    "no response data: " and the message. *)
Theorem eof_rule_before_certificate_rule Get site ferr :
  site <> "" ->
  Get (url_of site) = GetFailed ferr ->
  strings_Contains ferr "EOF" = true ->
  strings_Contains ferr "x509: certificate is valid for" = true ->
  go (Avant.procApp Get site) =
  [EvGet (url_of site);
   EvSend (mkReqRslt site false 999 ("no response data: " ++ ferr)); EvDone].
Proof.
  intros Hs HG Heof _. by rewrite (avant_get_failed _ _ _ Hs HG), Heof.
Qed.

Lemma eof_rule_before_certificate_rule_witness :
  let ferr := "x509: certificate is valid for *.herokuapp.com, not GEOFF.herokuapp.com" in
  go (Avant.procApp (fun _ => GetFailed ferr) "GEOFF") =
  [EvGet (url_of "GEOFF");
   EvSend (mkReqRslt "GEOFF" false 999 ("no response data: " ++ ferr)); EvDone].
Proof.
  intros ferr.
  apply (eof_rule_before_certificate_rule (fun _ => GetFailed ferr) "GEOFF" ferr).
  - discriminate.
  - reflexivity.
  - vm_compute; reflexivity.
  - vm_compute; reflexivity.
Defined.

(** ** The status field *)

(** In the second program a certificate failure is reported with status
    200, not 999. *)
Lemma certificate_failure_status :
  let ferr := "x509: certificate is valid for *.herokuapp.com, not shop.example.com" in
  exists r,
    sent_result (go (Avant.procApp (fun _ => GetFailed ferr) "shop")) = Some r /\
    Status r = 200 /\ Status r <> 999.
Proof. eexists. vm_compute. repeat split; discriminate. Qed.

(** C7, amended. In both programs the status of the result is the
    status code of the response when the GET and the reading of the body
    both succeeded, and 999 for the empty target and for a body that
    could not be read. For a failed GET it is 999 in the program of
    [main.go], whatever the message; in the second program it is 999
    too, with one exception: a message with the certificate marker and no
    "EOF" gives 200. *)
Theorem status_field Get site :
  (exists r,
    sent_result (go (Avant.procApp Get site)) = Some r /\
    (site = "" -> Status r = 999) /\
    (site <> "" ->
     match Get (url_of site) with
     | GetFailed ferr =>
         Status r =
         if strings_Contains ferr "EOF" then 999
         else if strings_Contains ferr "x509: certificate is valid for" then 200
         else 999
     | GetResponse resp =>
         match Body resp with
         | (_, Some _) => Status r = 999
         | (_, None) => Status r = StatusCode resp
         end
     end)) /\
  (exists r,
    sent_result (go (Main.procApp Get site)) = Some r /\
    (site = "" -> Status r = 999) /\
    (site <> "" ->
     match Get (url_of site) with
     | GetFailed _ => Status r = 999
     | GetResponse resp =>
         match Body resp with
         | (_, Some _) => Status r = 999
         | (_, None) => Status r = StatusCode resp
         end
     end)).
Proof.
  destruct (string_dec site "") as [->|Hs].
  { split; eexists; (split; [reflexivity|]); (split; [reflexivity|done]). }
  destruct (Get (url_of site)) as [ferr|[code [body [ferr|]]]] eqn:HG.
  - rewrite (avant_get_failed _ _ _ Hs HG), (main_get_failed _ _ _ Hs HG).
    split; [|eexists; (split; [reflexivity|]); split; done].
    destruct (strings_Contains ferr "EOF");
      [|destruct (strings_Contains ferr "x509: certificate is valid for")];
      eexists; (split; [reflexivity|]); split; done.
  - rewrite (avant_read_failed _ _ _ _ _ Hs HG), (main_read_failed _ _ _ _ _ Hs HG).
    split; eexists; (split; [reflexivity|]); split; done.
  - rewrite (avant_read_ok _ _ _ _ Hs HG), (main_read_ok _ _ _ _ Hs HG).
    split; eexists; (split; [reflexivity|]); (split; [done|]); intros _; simpl.
    + unfold avant_verdict.
      destruct (Avant.isAvantErrPage body); [done|].
      destruct (Avant.isHerokuErrPage body); [done|].
      destruct (Avant.isHerokuWelPage body); [done|].
      destruct (Avant.isHTML body); done.
    + unfold main_verdict.
      destruct (Main.isHerokuPage body); [done|].
      destruct (Main.isHTML body); done.
Qed.

(** ** The shape of a worker's run *)

Lemma avant_one_result Get site : one_result site (go (Avant.procApp Get site)).
Proof.
  destruct (string_dec site "") as [->|Hs].
  { eexists. repeat split. }
  destruct (Get (url_of site)) as [ferr|[code [body [ferr|]]]] eqn:HG.
  - rewrite (avant_get_failed _ _ _ Hs HG).
    destruct (strings_Contains ferr "EOF");
      [|destruct (strings_Contains ferr "x509: certificate is valid for")];
      eexists; repeat split.
  - rewrite (avant_read_failed _ _ _ _ _ Hs HG). eexists; repeat split.
  - rewrite (avant_read_ok _ _ _ _ Hs HG).
    eexists; repeat split. unfold avant_verdict.
    destruct (Avant.isAvantErrPage body); [done|].
    destruct (Avant.isHerokuErrPage body); [done|].
    destruct (Avant.isHerokuWelPage body); [done|].
    destruct (Avant.isHTML body); done.
Qed.

Lemma main_one_result Get site : one_result site (go (Main.procApp Get site)).
Proof.
  destruct (string_dec site "") as [->|Hs].
  { eexists. repeat split. }
  destruct (Get (url_of site)) as [ferr|[code [body [ferr|]]]] eqn:HG.
  - rewrite (main_get_failed _ _ _ Hs HG). eexists; repeat split.
  - rewrite (main_read_failed _ _ _ _ _ Hs HG). eexists; repeat split.
  - rewrite (main_read_ok _ _ _ _ Hs HG).
    eexists; repeat split. unfold main_verdict.
    destruct (Main.isHerokuPage body); [done|].
    destruct (Main.isHTML body); done.
Qed.

Lemma syncs_elem_of e es : e ∈ es -> is_sync e = true -> e ∈ syncs es.
Proof.
  induction 1 as [e es|e e' es _ IH]; intros He; simpl.
  - rewrite He. constructor.
  - destruct (is_sync e'); [constructor|]; by apply IH.
Qed.

Lemma one_result_no_panic site es : one_result site es -> EvPanic ∉ es.
Proof.
  intros (r & Hsy & _) Hin. apply syncs_elem_of in Hin; [|done].
  rewrite Hsy in Hin. apply elem_of_cons in Hin as [?|Hin]; [done|].
  apply elem_of_cons in Hin as [?|Hin]; [done|]. by apply not_elem_of_nil in Hin.
Qed.

(** C8. Classification never fails. The preview length, clamped to
    [min 50 (len body)], is within the body, so the slice [body[:tLen]] is
    in range for every body, the empty one included; no run of the worker
    panics, and every run sends a result. For every body read from a
    response the worker goes from the read straight to its send. Both
    programs. *)
Theorem classification_total :
  (forall body : list byte,
     0 <= Z.min 50 (len_bytes body) <= len_bytes body /\
     slice_to body (if len_bytes body <? 50 then len_bytes body else 50) =
     Some (take (Z.to_nat (Z.min 50 (len_bytes body))) body)) /\
  (forall Get site,
     (EvPanic ∉ go (Avant.procApp Get site)) /\
     is_Some (sent_result (go (Avant.procApp Get site))) /\
     (EvPanic ∉ go (Main.procApp Get site)) /\
     is_Some (sent_result (go (Main.procApp Get site)))) /\
  (forall c site code body,
     let Get := fun _ => GetResponse (mkResponse code (body, None)) in
     exists r r',
       go (Avant.procApp Get (String c site)) =
       [EvGet (url_of (String c site)); EvReadAll; EvSend r; EvClose; EvDone] /\
       go (Main.procApp Get (String c site)) =
       [EvGet (url_of (String c site)); EvReadAll; EvSend r'; EvClose; EvDone]).
Proof.
  split; [|split].
  - intros body. split; [unfold len_bytes; lia|].
    pose proof (slice_to_clamp body) as H. unfold clamp in H at 1.
    by rewrite clamp_min in H.
  - intros Get site.
    pose proof (avant_one_result Get site) as Ha.
    pose proof (main_one_result Get site) as Hm.
    repeat split; try (by eapply one_result_no_panic).
    + destruct Ha as (r & _ & _ & -> & _). by eexists.
    + destruct Hm as (r & _ & _ & -> & _). by eexists.
  - intros c site code body Get.
    exists (avant_verdict (String c site) code body), (main_verdict (String c site) code body).
    split; [apply avant_read_ok | apply main_read_ok]; done.
Qed.

(** ** Goroutines between their events *)

Lemma syncs_nil_no_done es : syncs es = [] -> last es <> Some EvDone.
Proof.
  intros Hs Hl. assert (EvDone ∈ es) as Hin.
  { apply last_Some in Hl as [l' ->]. apply elem_of_app. right. constructor. }
  apply syncs_elem_of in Hin; [|done]. rewrite Hs in Hin. by apply not_elem_of_nil in Hin.
Qed.

Lemma last_tail (e : Event) es x : es <> [] -> last (e :: es) = Some x -> last es = Some x.
Proof. destruct es; [done|]. by rewrite last_cons_cons. Qed.

Lemma stage_one_result site es : one_result site es -> stage site es.
Proof. intros (r & Hs & Ha & _ & Hl). by eapply stage_unsent. Qed.

(** One event further in a worker's run. *)
Lemma stage_step site e es :
  stage site (e :: es) ->
  match e with
  | EvSend r => App r = site /\ unsent (e :: es) = true /\ unsent es = false /\
                undone (e :: es) = 1%nat /\ undone es = 1%nat
  | EvDone => es = [] /\ unsent (e :: es) = false /\ undone (e :: es) = 1%nat
  | EvPanic => False
  | _ => unsent es = unsent (e :: es) /\ undone es = undone (e :: es)
  end /\ stage site es.
Proof.
  inversion 1 as [es0 r Hs Ha Hl | es0 Hs Hl | ]; subst.
  - assert (es <> []) as Hne.
    { intros ->. destruct e; simpl in Hs; discriminate. }
    pose proof (last_tail _ _ _ Hne Hl) as Hl'. unfold unsent, undone.
    destruct e; simpl in *; try discriminate;
      try (split; [done|]; by eapply stage_unsent).
    injection Hs as -> Hs. rewrite Hs. repeat split; try done. by apply stage_sent.
  - unfold unsent, undone.
    destruct e; simpl in *; try discriminate;
      try (assert (es <> []) as Hne by (intros ->; discriminate);
           pose proof (last_tail _ _ _ Hne Hl) as Hl';
           split; [done|]; by eapply stage_sent).
    injection Hs as Hs. destruct es as [|e' es'].
    + repeat split. apply stage_exited.
    + exfalso. eapply (syncs_nil_no_done _ Hs). by rewrite last_cons_cons in Hl.
Qed.

Lemma stage_undone_zero site es : stage site es -> undone es = 0%nat -> es = [].
Proof. unfold undone. inversion 1 as [? ? Hs|? Hs|]; subst; try done; by rewrite Hs. Qed.

Lemma pending_app gs es : pending (gs ++ [es]) = (pending gs + undone es)%nat.
Proof.
  unfold pending. rewrite sum_list_with_app. simpl. lia.
Qed.

Lemma pending_insert gs k es es' :
  gs !! k = Some es ->
  (pending (<[k:=es']> gs) + undone es = pending gs + undone es')%nat.
Proof.
  unfold pending. revert k. induction gs as [|g gs IH]; intros [|k] Hk; simpl in *; try done.
  - injection Hk as ->. lia.
  - specialize (IH _ Hk). lia.
Qed.

Lemma pending_zero gs es : pending gs = 0%nat -> es ∈ gs -> undone es = 0%nat.
Proof.
  unfold pending. induction gs as [|g gs IH]; intros Hp Hin.
  - by apply not_elem_of_nil in Hin.
  - simpl in Hp. apply elem_of_cons in Hin as [->|Hin]; [lia|]. apply IH; [lia|done].
Qed.

Lemma pending_pos gs :
  pending gs <> 0%nat -> exists k es, gs !! k = Some es /\ undone es <> 0%nat.
Proof.
  unfold pending. induction gs as [|g gs IH]; simpl; [done|]. intros Hp.
  destruct (decide (undone g = 0%nat)) as [Hg|Hg].
  - destruct IH as (k & es & Hk & Hes); [lia|]. by exists (S k), es.
  - by exists 0%nat, g.
Qed.

Lemma sent_sites_nil_r apps : sent_sites apps [] = [].
Proof. by destruct apps. Qed.

Lemma sent_sites_app_unsent apps gs es :
  unsent es = true -> sent_sites apps (gs ++ [es]) = sent_sites apps gs.
Proof.
  intros Hes. revert gs. induction apps as [|a apps IH]; intros [|g gs]; simpl; try done.
  - by rewrite Hes, sent_sites_nil_r.
  - by rewrite IH.
Qed.

Lemma sent_sites_insert_same apps gs k es es' :
  gs !! k = Some es -> unsent es' = unsent es ->
  sent_sites apps (<[k:=es']> gs) = sent_sites apps gs.
Proof.
  intros Hk Hu. revert apps k Hk.
  induction gs as [|g gs IH]; intros [|a apps] [|k] Hk; simpl in *; try done.
  - injection Hk as ->. by rewrite Hu.
  - by rewrite (IH _ _ Hk).
Qed.

Lemma sent_sites_insert_send apps gs k es es' site :
  gs !! k = Some es -> apps !! k = Some site ->
  unsent es = true -> unsent es' = false ->
  sent_sites apps (<[k:=es']> gs) ≡ₚ site :: sent_sites apps gs.
Proof.
  intros Hk Ha Hu Hu'. revert apps k Hk Ha.
  induction gs as [|g gs IH]; intros [|a apps] [|k] Hk Ha; simpl in *; try done.
  - injection Hk as ->. injection Ha as ->. by rewrite Hu, Hu'.
  - destruct (unsent g); rewrite (IH _ _ Hk Ha); [done|]. apply Permutation_swap.
Qed.

Lemma sent_sites_length apps gs : (length (sent_sites apps gs) <= length gs)%nat.
Proof.
  revert gs. induction apps as [|a apps IH]; intros [|g gs]; simpl; try lia.
  specialize (IH gs). destruct (unsent g); simpl; lia.
Qed.

Lemma sent_sites_length_lt apps gs k es :
  gs !! k = Some es -> unsent es = true ->
  (length (sent_sites apps gs) < length gs)%nat.
Proof.
  revert apps k. induction gs as [|g gs IH]; intros [|a apps] [|k] Hk Hu;
    simpl in *; try done; try lia.
  - injection Hk as ->. rewrite Hu. pose proof (sent_sites_length apps gs). lia.
  - specialize (IH apps _ Hk Hu). destruct (unsent g); simpl; lia.
Qed.

Lemma sent_sites_all_sent apps gs :
  (forall es, es ∈ gs -> unsent es = false) ->
  sent_sites apps gs = take (length gs) apps.
Proof.
  revert gs. induction apps as [|a apps IH]; intros [|g gs] H; simpl; try done.
  rewrite (H g) by constructor. f_equal. apply IH. intros es Hes. apply H. by constructor.
Qed.

(** ** The invariant of the running program *)

Section Invariant.

Variable P : Program.
Variable apps : list string.
Variable net : nat -> string -> GetOutcome.
Variable stdin : nat -> string.

(** The worker of [P] sends one result for its site, whatever it meets. *)
Hypothesis worker_ok : forall Get site, one_result site (go (proc P Get site)).

Lemma inv_init : Inv apps init.
Proof.
  split; simpl; try done.
  - by rewrite sent_sites_nil_r.
  - unfold pc_inv; simpl. split; [lia|done].
Qed.

(** With the counter at zero every goroutine started has run to its
    end. *)
Lemma inv_all_exited s es : Inv apps s -> wg s = 0 -> es ∈ gos s -> es = [].
Proof.
  intros HI Hwg Hin. pose proof (inv_wg _ _ HI) as Hp.
  apply list_elem_of_lookup in Hin as [k Hk].
  destruct (inv_stage _ _ HI _ _ Hk) as (site & _ & Hst).
  apply (stage_undone_zero _ _ Hst).
  apply (pending_zero (gos s)); [lia|]. apply list_elem_of_lookup. by exists k.
Qed.

(** Past the barrier the results received and those in the channel are
    the results of all the targets. *)
Lemma inv_all_delivered s :
  Inv apps s -> wg s = 0 -> length (gos s) = length apps ->
  App <$> (drained s ++ chn s)%list ≡ₚ apps.
Proof.
  intros HI Hwg Hlen. rewrite (inv_sent _ _ HI), sent_sites_all_sent.
  - by rewrite Hlen, firstn_all.
  - intros es Hes. by rewrite (inv_all_exited _ _ HI Hwg Hes).
Qed.

Lemma inv_main s s' : Inv apps s -> step_main P apps net stdin s = Some s' -> Inv apps s'.
Proof.
  intros HI Hstep. pose proof (inv_pc _ _ HI) as Hpc.
  destruct HI as [Hal Hsp Hst Hwg Hse _].
  unfold step_main in Hstep. unfold pc_inv in Hpc.
  destruct (pc s) as [i| | | |i|] eqn:Epc; simpl in Hsp.
  - destruct Hpc as [Hi Hdr].
    destruct (Nat.ltb_spec i (length apps)) as [Hlt|Hge].
    + destruct (apps !! i) as [site|] eqn:Ea; [|by apply lookup_lt_is_Some_2 in Hlt as [? ?]; congruence].
      injection Hstep as <-. pose proof (worker_ok (net i) site) as Hw.
      split; simpl; try done.
      * rewrite length_app. simpl. lia.
      * intros k es Hk. destruct (decide (k < length (gos s))%nat) as [Hlt'|Hge'].
        { rewrite lookup_app_l in Hk by done. by apply Hst. }
        rewrite lookup_app_r in Hk by lia.
        destruct (k - length (gos s))%nat as [|n] eqn:En; simpl in Hk; [|done].
        injection Hk as <-. assert (k = i) as -> by lia.
        exists site. split; [done|]. by apply stage_one_result.
      * rewrite pending_app, Hwg. destruct Hw as (r & Hs & _).
        unfold undone. rewrite Hs. lia.
      * rewrite sent_sites_app_unsent; [done|].
        destruct Hw as (r & Hs & _). unfold unsent. by rewrite Hs.
    + injection Hstep as <-. split; simpl; try done. lia.
  - destruct (Z.eqb_spec (wg s) 0) as [Hz|]; [|done]. injection Hstep as <-.
    split; simpl; try done.
    + by destruct (pauses P).
    + unfold pc_inv; simpl. by destruct (pauses P).
  - destruct (negb _); injection Hstep as <-; split; simpl; unfold pc_inv; simpl;
      rewrite ?Epc; done.
  - injection Hstep as <-. destruct Hpc as [Hz Hdr]. split; simpl; try done.
    unfold pc_inv, report_printed; simpl. rewrite Hdr. simpl.
    repeat split; try done; try lia. by exists (stdout s).
  - destruct Hpc as (Hz & Hl & Hi & pre & Hout).
    destruct (Nat.ltb_spec i (length apps)) as [Hlt|Hge].
    + destruct (chn s) as [|v rest] eqn:Ec; [done|]. injection Hstep as <-.
      split; simpl; try done.
      * by rewrite <- app_assoc.
      * unfold pc_inv, report_printed; simpl. rewrite length_app. simpl.
        repeat split; try done; try lia.
        exists pre. rewrite Hout, fmap_app, <- app_assoc. done.
    + injection Hstep as <-. split; simpl; try done.
      unfold pc_inv, report_printed; simpl. repeat split; try done; try lia. by exists pre.
  - done.
Qed.

Lemma stage_insert (gs : list (list Event)) k site es' :
  (forall k es, gs !! k = Some es -> exists site, apps !! k = Some site /\ stage site es) ->
  apps !! k = Some site -> stage site es' ->
  forall k' es, <[k:=es']> gs !! k' = Some es ->
                exists site, apps !! k' = Some site /\ stage site es.
Proof.
  intros Hall Ha Hst k' es Hk'. destruct (decide (k = k')) as [<-|Hne].
  - destruct (decide (k < length gs)%nat) as [Hlt|Hge].
    + rewrite list_lookup_insert_eq in Hk' by done. injection Hk' as <-. by exists site.
    + rewrite list_insert_ge in Hk' by lia. by apply Hall.
  - rewrite list_lookup_insert_ne in Hk' by done. by apply Hall.
Qed.

Lemma stage_cons_undone site e es : stage site (e :: es) -> undone (e :: es) = 1%nat.
Proof. unfold undone. inversion 1 as [? ? Hs|? Hs|]; by rewrite Hs. Qed.

Lemma pending_ge (gs : list (list Event)) k es :
  gs !! k = Some es -> (undone es <= pending gs)%nat.
Proof.
  intros Hk. apply sum_list_with_in, list_elem_of_lookup. by exists k.
Qed.

(** A goroutine that can still step keeps [main] before or at the
    barrier. *)
Lemma inv_live_before_barrier s k e es :
  Inv apps s -> gos s !! k = Some (e :: es) ->
  0 < wg s /\ drained s = [] /\
  ((exists i, pc s = Spawning i /\ (i <= length apps)%nat) \/ pc s = Waiting).
Proof.
  intros HI Hk. destruct (inv_stage _ _ HI _ _ Hk) as (site & _ & Hst).
  pose proof (stage_cons_undone _ _ _ Hst) as Hu.
  pose proof (pending_ge _ _ _ Hk) as Hp.
  pose proof (inv_wg _ _ HI) as Hwg. pose proof (inv_pc _ _ HI) as Hpc.
  assert (0 < wg s) as Hpos by lia. split; [done|].
  unfold pc_inv in Hpc. destruct (pc s) as [i| | | |i|]; try lia.
  - destruct Hpc. split; [done|]. left. by exists i.
  - split; [done|]. by right.
Qed.

Lemma inv_go k s s' : Inv apps s -> step_go apps k s = Some s' -> Inv apps s'.
Proof.
  intros HI Hstep. unfold step_go in Hstep.
  destruct (gos s !! k) as [[|e es]|] eqn:Hk; try done.
  destruct (inv_live_before_barrier _ _ _ _ HI Hk) as (Hpos & Hdr & Hbefore).
  destruct HI as [Hal Hsp Hst Hwg Hse Hpc].
  destruct (Hst _ _ Hk) as (site & Ha & Hstg).
  pose proof (stage_step _ _ _ Hstg) as [He Hstg'].
  pose proof (stage_insert _ _ _ _ Hst Ha Hstg') as Hst'.
  pose proof (pending_insert _ _ _ es Hk) as Hpi.
  assert (forall out, pc_inv apps (mkState (pc s) (wg s) (chn s) (<[k:=es]> (gos s)) out
                                (stdin_pos s) (drained s) (crashed s))) as Hpc_out.
  { intros out. unfold pc_inv in *; simpl.
    destruct Hbefore as [(i & -> & Hi)| ->]; done. }
  destruct e; simpl in Hstep, He.
  - injection Hstep as <-. destruct He as [Hu1 Hu2].
    split; simpl; rewrite ?length_insert; try done; try apply Hpc_out; [lia|].
    by rewrite (sent_sites_insert_same _ _ _ _ _ Hk Hu1).
  - injection Hstep as <-. destruct He as [Hu1 Hu2].
    split; simpl; rewrite ?length_insert; try done; try apply Hpc_out; [lia|].
    by rewrite (sent_sites_insert_same _ _ _ _ _ Hk Hu1).
  - injection Hstep as <-. destruct He as [Hu1 Hu2].
    split; simpl; rewrite ?length_insert; try done; try apply Hpc_out; [lia|].
    by rewrite (sent_sites_insert_same _ _ _ _ _ Hk Hu1).
  - injection Hstep as <-. destruct He as [Hu1 Hu2].
    split; simpl; rewrite ?length_insert; try done; try apply Hpc_out; [lia|].
    by rewrite (sent_sites_insert_same _ _ _ _ _ Hk Hu1).
  - destruct (length (chn s) <? length apps)%nat; [|done]. injection Hstep as <-.
    destruct He as (Happ & Hu1 & Hu2 & Hd1 & Hd2).
    split; simpl; rewrite ?length_insert; try done; [lia|].
    rewrite (sent_sites_insert_send _ _ _ _ _ _ Hk Ha Hu1 Hu2).
    rewrite app_assoc, fmap_app, Hse. simpl. rewrite Happ.
    by rewrite <- Permutation_cons_append.
  - injection Hstep as <-. destruct He as [Hu1 Hu2].
    split; simpl; rewrite ?length_insert; try done; try apply Hpc_out; [lia|].
    by rewrite (sent_sites_insert_same _ _ _ _ _ Hk Hu1).
  - destruct He as (-> & Hu1 & Hd1).
    destruct (Z.ltb_spec (wg s - 1) 0) as [Hneg|Hok]; [lia|]. injection Hstep as <-.
    split; simpl; rewrite ?length_insert; try done.
    + change (undone []) with 0%nat in Hpi. lia.
    + by rewrite (sent_sites_insert_same _ _ _ _ _ Hk).
    + unfold pc_inv in *; simpl. destruct Hbefore as [(i & -> & Hi)| ->]; done.
  - done.
Qed.

Lemma inv_step s s' : Inv apps s -> step P apps net stdin s s' -> Inv apps s'.
Proof.
  intros HI [t Ht]. unfold sched in Ht. rewrite (inv_alive _ _ HI) in Ht.
  destruct t; [by eapply inv_main | by eapply inv_go].
Qed.

Lemma inv_reachable s : reachable P apps net stdin s -> Inv apps s.
Proof. induction 1; [apply inv_init | by eapply inv_step]. Qed.

(** No deadlock: until [main] has finished, [main] or a goroutine can
    take a step. *)
Lemma inv_progress s :
  Inv apps s -> pc s <> Finished -> exists s', step P apps net stdin s s'.
Proof.
  intros HI Hnf. pose proof (inv_pc _ _ HI) as Hpc. unfold pc_inv in Hpc.
  unfold step, sched. rewrite (inv_alive _ _ HI).
  destruct (pc s) as [i| | | |i|] eqn:Epc; try done.
  - exists (default s (step_main P apps net stdin s)), MainT.
    unfold step_main. rewrite Epc. destruct (i <? length apps)%nat; [|done].
    by destruct (apps !! i).
  - destruct (Z.eqb_spec (wg s) 0) as [Hz|Hnz].
    { eexists; exists MainT. unfold step_main. rewrite Epc.
      destruct (Z.eqb_spec (wg s) 0); [reflexivity|done]. }
    destruct (pending_pos (gos s)) as (k & es & Hk & Hu).
    { pose proof (inv_wg _ _ HI). lia. }
    destruct es as [|e es]; [done|].
    destruct (inv_stage _ _ HI _ _ Hk) as (site & Ha & Hstg).
    pose proof (stage_step _ _ _ Hstg) as [He _].
    exists (default s (step_go apps k s)), (GoT k). unfold step_go. rewrite Hk.
    destruct e; simpl; try done.
    + destruct He as (_ & Hu1 & _).
      pose proof (sent_sites_length_lt apps _ _ _ Hk Hu1) as Hlt.
      pose proof (Permutation_length (inv_sent _ _ HI)) as Hlen.
      rewrite length_fmap, length_app in Hlen.
      pose proof (inv_spawned _ _ HI) as Hsp. rewrite Epc in Hsp. simpl in Hsp.
      destruct (Nat.ltb_spec (length (chn s)) (length apps)); [done|exfalso; lia].
    + by destruct (wg s - 1 <? 0).
  - exists (default s (step_main P apps net stdin s)), MainT.
    unfold step_main. rewrite Epc. by destruct (negb _).
  - eexists; exists MainT. unfold step_main. by rewrite Epc.
  - destruct Hpc as (Hz & Hl & Hi & _).
    exists (default s (step_main P apps net stdin s)), MainT.
    unfold step_main. rewrite Epc.
    destruct (Nat.ltb_spec i (length apps)) as [Hlt|Hge]; [|done].
    pose proof (inv_spawned _ _ HI) as Hsp. rewrite Epc in Hsp. simpl in Hsp.
    pose proof (Permutation_length (inv_all_delivered _ HI Hz Hsp)) as Hlen.
    rewrite length_fmap, length_app in Hlen.
    destruct (chn s); [simpl in Hlen; lia | done].
Qed.

(** *** Every run is finite *)

Section Fuel.

Variable K : nat.
Hypothesis line_typed : pauses P = true -> stdin K <> "".

Lemma sum_list_with_insert {A} (f : A -> nat) (l : list A) k x y :
  l !! k = Some x ->
  (sum_list_with f (<[k:=y]> l) + f x = sum_list_with f l + f y)%nat.
Proof.
  revert k. induction l as [|a l IH]; intros [|k] Hk; simpl in *; try done.
  - injection Hk as ->. lia.
  - specialize (IH _ Hk). lia.
Qed.

Lemma pos_inv_step s s' :
  pos_inv P K s -> step P apps net stdin s s' -> pos_inv P K s' /\ (fuel P apps net K s' < fuel P apps net K s)%nat.
Proof.
  intros Hpos [t Ht]. unfold sched in Ht.
  destruct (crashed s); [done|]. destruct t as [|k].
  - unfold step_main in Ht. unfold pos_inv, fuel, main_left in *.
    destruct (pc s) as [i| | | |i|] eqn:Epc.
    + destruct (Nat.ltb_spec i (length apps)) as [Hlt|Hge].
      * destruct (apps !! i) as [site|] eqn:Ea.
        -- injection Ht as <-. simpl. split; [done|].
           rewrite (drop_S _ _ _ Ea), sum_list_with_app. simpl. lia.
        -- apply lookup_lt_is_Some_2 in Hlt as [? ?]. congruence.
      * injection Ht as <-. simpl. split; [done|]. lia.
    + destruct (wg s =? 0); [|done]. injection Ht as <-. simpl.
      destruct (pauses P); simpl; (split; [done || (split; [done|lia])|lia]).
    + destruct Hpos as [Hp Hle].
      destruct (len_string (stdin (stdin_pos s)) =? 0) eqn:El; simpl in Ht;
        injection Ht as <-; simpl; rewrite ?Epc.
      * apply len_string_zero in El.
        assert (stdin_pos s <> K) by (intros E; apply (line_typed Hp); by rewrite <- E).
        split; [split; [done|lia]|lia].
      * split; [done|lia].
    + injection Ht as <-. simpl. split; [done|lia].
    + destruct (Nat.ltb_spec i (length apps)) as [Hlt|Hge].
      * destruct (chn s); [done|]. injection Ht as <-. simpl. split; [done|lia].
      * injection Ht as <-. simpl. split; [done|lia].
    + done.
  - unfold step_go in Ht.
    destruct (gos s !! k) as [[|e es]|] eqn:Hk; try done.
    pose proof (sum_list_with_insert length _ _ _ es Hk) as Hsum. simpl in Hsum.
    assert (forall s1, pc s1 = pc s -> stdin_pos s1 = stdin_pos s ->
                       gos s1 = <[k:=es]> (gos s) ->
                       pos_inv P K s1 /\ (fuel P apps net K s1 < fuel P apps net K s)%nat) as Hgo.
    { intros s1 E1 E2 E3. unfold pos_inv, fuel, main_left in *.
      rewrite E1, E2, E3. split; [done|lia]. }
    destruct e; simpl in Ht;
      repeat match type of Ht with
             | context [if ?c then _ else _] => destruct c
             end;
      try done; injection Ht as <-; by apply Hgo.
Qed.

End Fuel.

End Invariant.

Lemma programs_one_result P Get site :
  P = main_go \/ P = avant_go -> one_result site (go (proc P Get site)).
Proof. intros [->| ->]; [apply main_one_result | apply avant_one_result]. Qed.

Lemma pos_inv_reachable P apps net stdin K s :
  (pauses P = true -> stdin K <> "") ->
  reachable P apps net stdin s -> pos_inv P K s.
Proof.
  intros HK. induction 1 as [|s s' _ IH Hstep]; [done|].
  by apply (pos_inv_step P apps net stdin K HK s s').
Qed.

Lemma run_reachable P apps net stdin sch s :
  reachable P apps net stdin s -> reachable P apps net stdin (run P apps net stdin sch s).
Proof.
  revert s. induction sch as [|t sch IH]; intros s Hs; simpl; [done|].
  destruct (sched P apps net stdin t s) as [s'|] eqn:Ht; apply IH; [|done].
  eapply reachable_step; [done|]. by exists t.
Qed.

(** From every state the program reaches it can be run to its end. *)
Lemma runs_to_completion P apps net stdin K :
  (forall Get site, one_result site (go (proc P Get site))) ->
  (pauses P = true -> stdin K <> "") ->
  forall s, reachable P apps net stdin s ->
            exists sch, pc (run P apps net stdin sch s) = Finished.
Proof.
  intros Hok HK s Hs.
  remember (S (fuel P apps net K s)) as n eqn:En.
  assert (fuel P apps net K s < n)%nat as Hlt by lia. clear En.
  revert s Hs Hlt. induction n as [|n IH]; intros s Hs Hlt; [lia|].
  assert (pc s = Finished \/ pc s <> Finished) as [Hf|Hnf]
    by (destruct (pc s); (by left) || (by right)).
  { by exists []. }
  pose proof (inv_reachable P apps net stdin Hok s Hs) as HI.
  destruct (inv_progress P apps net stdin s HI Hnf) as (s' & t & Ht).
  assert (step P apps net stdin s s') as Hstep by (by exists t).
  pose proof (pos_inv_reachable P apps net stdin K s HK Hs) as Hpos.
  destruct (pos_inv_step P apps net stdin K HK s s' Hpos Hstep) as [_ Hfuel].
  destruct (IH s') as [sch Hsch]; [by eapply reachable_step | lia |].
  exists (t :: sch). simpl. by rewrite Ht.
Qed.

(** ** One result per target *)

(** C1. Each worker sends one result, for its own target: its run has
    one send, then [wg.Done()], and no panic. Whenever [main] has returned,
    it has received and printed as many rows as there were targets, the
    targets of the rows are the targets of the list up to their order,
    and the channel is empty; at no time are there more goroutines or
    more rows than targets, so an empty list gives an empty report. And
    [main] does return: the program never crashes and never deadlocks,
    and, provided that a line is typed when the second program pauses
    for one, every step uses up a finite budget and every state reached
    can be run to the end. Both programs. *)
Theorem one_result_per_target (P : Program) (apps : list string)
    (net : nat -> string -> GetOutcome) (stdin : nat -> string) :
  P = main_go \/ P = avant_go ->
  (forall Get site, exists r,
     syncs (go (proc P Get site)) = [EvSend r; EvDone] /\ App r = site) /\
  (forall s, reachable P apps net stdin s ->
     (length (gos s) <= length apps)%nat /\ (length (drained s) <= length apps)%nat) /\
  (forall s, reachable P apps net stdin s -> pc s = Finished ->
     length (drained s) = length apps /\ App <$> drained s ≡ₚ apps /\ chn s = [] /\
     exists pre, stdout s = (pre ++ header :: (row <$> drained s))%list) /\
  (forall s, reachable P apps net stdin s ->
     crashed s = false /\
     (pc s <> Finished -> exists s', step P apps net stdin s s')) /\
  ((pauses P = true -> exists K, stdin K <> "") ->
   (exists fuel : State -> nat,
      forall s s', reachable P apps net stdin s -> step P apps net stdin s s' ->
                   (fuel s' < fuel s)%nat) /\
   (forall s, reachable P apps net stdin s ->
              exists sch, pc (run P apps net stdin sch s) = Finished)).
Proof.
  intros HP.
  assert (forall Get site, one_result site (go (proc P Get site))) as Hok.
  { intros Get site. by apply programs_one_result. }
  split; [|split; [|split; [|split]]].
  - intros Get site. destruct (Hok Get site) as (r & Hs & Ha & _). by exists r.
  - intros s Hs. pose proof (inv_reachable P apps net stdin Hok s Hs) as HI.
    pose proof (inv_spawned _ _ HI) as Hsp. pose proof (inv_pc _ _ HI) as Hpc.
    pose proof (Permutation_length (inv_sent _ _ HI)) as Hlen.
    rewrite length_fmap, length_app in Hlen.
    pose proof (sent_sites_length apps (gos s)) as Hle.
    assert (length (gos s) <= length apps)%nat; [|lia].
    rewrite Hsp. unfold pc_inv in Hpc. destruct (pc s); simpl; try lia.
  - intros s Hs Hfin. pose proof (inv_reachable P apps net stdin Hok s Hs) as HI.
    pose proof (inv_spawned _ _ HI) as Hsp. pose proof (inv_pc _ _ HI) as Hpc.
    unfold pc_inv in Hpc. rewrite Hfin in Hpc, Hsp. simpl in Hsp.
    destruct Hpc as (Hz & Hl & Hout).
    pose proof (inv_all_delivered _ _ HI Hz Hsp) as Hperm.
    assert (chn s = []) as Hc.
    { apply Permutation_length in Hperm. rewrite length_fmap, length_app in Hperm.
      destruct (chn s); [done|simpl in Hperm; lia]. }
    rewrite Hc, app_nil_r in Hperm. done.
  - intros s Hs. pose proof (inv_reachable P apps net stdin Hok s Hs) as HI.
    split; [apply (inv_alive _ _ HI) | by apply inv_progress].
  - intros Hline.
    assert (exists K, pauses P = true -> stdin K <> "") as [K HK].
    { destruct (pauses P); [|by exists 0%nat].
      destruct (Hline eq_refl) as [K HK]. by exists K. }
    split.
    + exists (fuel P apps net K). intros s s' Hs Hstep.
      apply (pos_inv_step P apps net stdin K); [done| |done].
      by apply (pos_inv_reachable P apps net stdin).
    + by apply (runs_to_completion P apps net stdin K).
Qed.

Lemma one_result_per_target_witness :
  let apps := ["shop"; ""; "shop"] in
  let net := fun (k : nat) (_ : string) =>
    match k with
    | O => GetFailed "unexpected EOF"
    | _ => GetResponse (mkResponse 200 (bytes_of "<html><body>hi</body></html>", None))
    end in
  let stdin := fun n : nat => match n with O => "" | _ => "go" ++ nl end in
  let sch := ([MainT; MainT; GoT 1; GoT 0; MainT; GoT 2; GoT 2; GoT 1; GoT 0; GoT 0;
               GoT 2; GoT 2; GoT 2] ++ repeat MainT 9)%list in
  let s := run avant_go apps net stdin sch init in
  pc s = Finished /\ length (drained s) = 3%nat /\ App <$> drained s ≡ₚ apps.
Proof.
  intros apps net stdin sch s.
  assert (pc s = Finished) as Hfin by (vm_compute; reflexivity).
  split; [exact Hfin|].
  destruct (one_result_per_target avant_go apps net stdin (or_intror eq_refl))
    as (_ & _ & Hrep & _).
  destruct (Hrep s) as (Hl & Hp & _).
  - apply run_reachable. apply reachable_init.
  - exact Hfin.
  - split; [exact Hl | exact Hp].
Defined.

(** ** The barrier *)




(** * Further properties of the worker *)

(** ** Requests and the response body *)

(** X1. A worker calls [http.Get] at most once: not at all for the
    empty site, and otherwise once, with the URL
    [http://<site>.herokuapp.com], whatever the call returns; it never
    calls it again and never with another URL. (The requests the client
    makes inside the call, such as those of a redirect, are not counted.)
    Both programs. *)
Theorem one_request_per_site (Get : string -> GetOutcome) (site : string) :
  requests (go (Avant.procApp Get site)) = (if String.eqb site "" then [] else [url_of site]) /\
  requests (go (Main.procApp Get site)) = (if String.eqb site "" then [] else [url_of site]).
Proof.
  destruct (String.eqb_spec site "") as [->|Hs]; [done|].
  destruct (Get (url_of site)) as [ferr|[code [body [ferr|]]]] eqn:HG.
  - rewrite (avant_get_failed _ _ _ Hs HG), (main_get_failed _ _ _ Hs HG).
    destruct (strings_Contains ferr "EOF");
      [|destruct (strings_Contains ferr "x509: certificate is valid for")]; done.
  - by rewrite (avant_read_failed _ _ _ _ _ Hs HG), (main_read_failed _ _ _ _ _ Hs HG).
  - by rewrite (avant_read_ok _ _ _ _ Hs HG), (main_read_ok _ _ _ _ Hs HG).
Qed.

(** X2. The response body is closed once on every path that got a
    response, also when reading it failed, and the close comes after the
    send and just before [wg.Done()]; a run that got no response (the empty
    site, a failed GET) closes nothing. Both programs. *)
Theorem body_closed_once (Get : string -> GetOutcome) (site : string) :
  let got_response :=
    site <> "" /\ exists resp, Get (url_of site) = GetResponse resp in
  (got_response ->
   (exists pre r, go (Avant.procApp Get site) = (pre ++ [EvSend r; EvClose; EvDone])%list /\
                  closes pre = 0%nat) /\
   (exists pre r, go (Main.procApp Get site) = (pre ++ [EvSend r; EvClose; EvDone])%list /\
                  closes pre = 0%nat)) /\
  (~ got_response ->
   closes (go (Avant.procApp Get site)) = 0%nat /\
   closes (go (Main.procApp Get site)) = 0%nat).
Proof.
  intros got_response. subst got_response. split.
  - intros (Hs & resp & HG). destruct resp as [code [body [ferr|]]].
    + rewrite (avant_read_failed _ _ _ _ _ Hs HG), (main_read_failed _ _ _ _ _ Hs HG).
      split; eexists [_; _; _], _; split; reflexivity.
    + rewrite (avant_read_ok _ _ _ _ Hs HG), (main_read_ok _ _ _ _ Hs HG).
      split; eexists [_; _], _; split; reflexivity.
  - intros Hno. destruct (string_dec site "") as [->|Hs]; [done|].
    destruct (Get (url_of site)) as [ferr|resp] eqn:HG.
    + rewrite (avant_get_failed _ _ _ Hs HG), (main_get_failed _ _ _ Hs HG).
      destruct (strings_Contains ferr "EOF");
        [|destruct (strings_Contains ferr "x509: certificate is valid for")]; done.
    + exfalso. apply Hno. split; [done|]. by exists resp.
Qed.

Lemma body_closed_once_witness :
  let Get := fun _ : string =>
    GetResponse (mkResponse 200 (bytes_of "partial", Some "unexpected EOF")) in
  exists pre r,
    go (Avant.procApp Get "shop") = (pre ++ [EvSend r; EvClose; EvDone])%list /\
    closes pre = 0%nat.
Proof.
  intros Get.
  refine (proj1 (proj1 (body_closed_once Get "shop") _)).
  split; [discriminate|]. eexists. reflexivity.
Defined.

(** ** What decides the verdict *)

(** X3. For a body that was read, the site is reported reachable exactly
    when the body carries none of the markers the program looks for (four
    in the second program, two in the program of [main.go]); whether the
    body is an HTML page changes the note only. The status reported is
    the status code of the response. *)
Theorem reachable_iff_no_marker Get site code body :
  site <> "" ->
  Get (url_of site) = GetResponse (mkResponse code (body, None)) ->
  exists ra rm,
    sent_result (go (Avant.procApp Get site)) = Some ra /\
    sent_result (go (Main.procApp Get site)) = Some rm /\
    Accessible ra = negb (any_marker body) /\
    Accessible rm = negb (heroku_marker body) /\
    Status ra = code /\ Status rm = code.
Proof.
  intros Hs HG. rewrite (avant_read_ok _ _ _ _ Hs HG), (main_read_ok _ _ _ _ Hs HG).
  do 2 eexists. do 2 (split; [reflexivity|]).
  unfold avant_verdict, main_verdict, any_marker, heroku_marker.
  rewrite isAvantErrPage_has, isHerokuErrPage_has, isHerokuWelPage_has, isHerokuPage_has.
  change (Main.isHTML body) with (Avant.isHTML body).
  destruct (has body avant_marker_us), (has body avant_marker_uk),
    (has body heroku_error_marker), (has body welcome_marker),
    (Avant.isHTML body); done.
Qed.

Lemma reachable_iff_no_marker_witness :
  let body := bytes_of "<html><body>Application error 500</body></html>" in
  let Get := fun _ : string => GetResponse (mkResponse 500 (body, None)) in
  exists ra,
    sent_result (go (Avant.procApp Get "shop")) = Some ra /\
    Accessible ra = true /\ Status ra = 500.
Proof.
  intros body Get.
  destruct (reachable_iff_no_marker Get "shop" 500 body) as (ra & rm & Ha & _ & Hacc & _ & Hst & _).
  - discriminate.
  - reflexivity.
  - exists ra. split; [exact Ha|]. split; [|exact Hst].
    rewrite Hacc. vm_compute. reflexivity.
Defined.

(** X4. The verdict does not look at the status code: two responses
    with the same body and different status codes get the same
    reachability and the same note, each with its own status. A page
    served with status 404 or 500 is classified like the same page served
    with status 200. Both programs. *)
Theorem verdict_ignores_status Get Get' site code code' body :
  site <> "" ->
  Get (url_of site) = GetResponse (mkResponse code (body, None)) ->
  Get' (url_of site) = GetResponse (mkResponse code' (body, None)) ->
  (exists r r',
     sent_result (go (Avant.procApp Get site)) = Some r /\
     sent_result (go (Avant.procApp Get' site)) = Some r' /\
     Accessible r = Accessible r' /\ Notes r = Notes r' /\
     Status r = code /\ Status r' = code') /\
  (exists r r',
     sent_result (go (Main.procApp Get site)) = Some r /\
     sent_result (go (Main.procApp Get' site)) = Some r' /\
     Accessible r = Accessible r' /\ Notes r = Notes r' /\
     Status r = code /\ Status r' = code').
Proof.
  intros Hs HG HG'.
  rewrite (avant_read_ok _ _ _ _ Hs HG), (main_read_ok _ _ _ _ Hs HG),
    (avant_read_ok _ _ _ _ Hs HG'), (main_read_ok _ _ _ _ Hs HG').
  unfold avant_verdict, main_verdict.
  split; do 2 eexists; (do 2 (split; [reflexivity|])).
  - destruct (Avant.isAvantErrPage body), (Avant.isHerokuErrPage body),
      (Avant.isHerokuWelPage body), (Avant.isHTML body); done.
  - destruct (Main.isHerokuPage body), (Main.isHTML body); done.
Qed.

Lemma verdict_ignores_status_witness :
  let body := bytes_of "<html><body>Not Found</body></html>" in
  let Get := fun _ : string => GetResponse (mkResponse 200 (body, None)) in
  let Get' := fun _ : string => GetResponse (mkResponse 404 (body, None)) in
  exists r r',
    sent_result (go (Avant.procApp Get "shop")) = Some r /\
    sent_result (go (Avant.procApp Get' "shop")) = Some r' /\
    Accessible r = Accessible r' /\ Notes r = Notes r' /\
    Status r = 200 /\ Status r' = 404.
Proof.
  intros body Get Get'.
  refine (proj1 (verdict_ignores_status Get Get' "shop" 200 404 body _ _ _)).
  - discriminate.
  - reflexivity.
  - reflexivity.
Defined.

(** ** The two programs side by side *)

(** X5. On the same site and the same network the two programs send
    results for the same target, and the second program is the stricter
    one: a site it reports reachable is reported reachable by the program
    of [main.go] too. They disagree on reachability only for a body with an
    Avant marker and no Heroku marker, and on the status only for a failed
    GET whose message has the certificate marker and no "EOF" (200
    against 999). *)
Theorem programs_compared (Get : string -> GetOutcome) (site : string) :
  exists ra rm,
    sent_result (go (Avant.procApp Get site)) = Some ra /\
    sent_result (go (Main.procApp Get site)) = Some rm /\
    App ra = site /\ App rm = site /\
    (Accessible ra = true -> Accessible rm = true) /\
    (Accessible ra <> Accessible rm ->
     exists code body,
       Get (url_of site) = GetResponse (mkResponse code (body, None)) /\
       has body avant_marker_us || has body avant_marker_uk = true /\
       heroku_marker body = false) /\
    (Status ra <> Status rm ->
     exists ferr,
       Get (url_of site) = GetFailed ferr /\
       strings_Contains ferr "EOF" = false /\
       strings_Contains ferr "x509: certificate is valid for" = true /\
       Status ra = 200 /\ Status rm = 999).
Proof.
  destruct (string_dec site "") as [->|Hs].
  { do 2 eexists. do 4 (split; [reflexivity|]). repeat split; done. }
  destruct (Get (url_of site)) as [ferr|[code [body [ferr|]]]] eqn:HG.
  - rewrite (avant_get_failed _ _ _ Hs HG), (main_get_failed _ _ _ Hs HG).
    destruct (strings_Contains ferr "EOF") eqn:He;
      [|destruct (strings_Contains ferr "x509: certificate is valid for") eqn:Hc];
      do 2 eexists; (do 4 (split; [reflexivity|])); simpl;
      (split; [done|]); (split; [done|]); try done.
    intros _. by exists ferr.
  - rewrite (avant_read_failed _ _ _ _ _ Hs HG), (main_read_failed _ _ _ _ _ Hs HG).
    do 2 eexists. do 2 (split; [reflexivity|]). repeat split; done.
  - rewrite (avant_read_ok _ _ _ _ Hs HG), (main_read_ok _ _ _ _ Hs HG).
    do 2 eexists. do 2 (split; [reflexivity|]).
    unfold avant_verdict, main_verdict, heroku_marker.
    rewrite isAvantErrPage_has, isHerokuErrPage_has, isHerokuWelPage_has, isHerokuPage_has.
    change (Main.isHTML body) with (Avant.isHTML body).
    destruct (has body avant_marker_us || has body avant_marker_uk) eqn:Hav,
      (has body heroku_error_marker) eqn:Hhe, (has body welcome_marker) eqn:Hwe,
      (Avant.isHTML body); simpl; repeat split; try done;
      intros _; exists code, body; by rewrite Hav, Hhe, Hwe.
Qed.

(** ** Where in the body the tags and markers are *)

Lemma bytes_Contains_embed (b sub pre post : list byte) :
  bytes_Contains b sub = true -> bytes_Contains (pre ++ b ++ post) sub = true.
Proof.
  rewrite !bytes_Contains_spec. intros (p & q & ->).
  exists (pre ++ p)%list, (q ++ post)%list. by rewrite <- !app_assoc.
Qed.

Lemma has_embed (b pre post : list byte) (m : string) :
  has b m = true -> has (pre ++ b ++ post) m = true.
Proof. apply bytes_Contains_embed. Qed.

(** X6. [isHTML] holds exactly when one of the tags [<html], [<HTML]
    occurs somewhere in the body and one of the tags [<body], [<BODY]
    occurs somewhere in it: the two occurrences are looked for
    independently, in any order and at any offset, and no closing tag is
    asked for. The function is the same in the two programs. *)
Theorem isHTML_occurrences (b : list byte) :
  (Avant.isHTML b = true <->
   (exists t pre post, (t = "<html" \/ t = "<HTML") /\ b = (pre ++ bytes_of t ++ post)%list) /\
   (exists t pre post, (t = "<body" \/ t = "<BODY") /\ b = (pre ++ bytes_of t ++ post)%list)) /\
  Main.isHTML b = Avant.isHTML b.
Proof.
  split; [|reflexivity].
  rewrite isHTML_has, andb_true_iff, !orb_true_iff. unfold has.
  rewrite !bytes_Contains_spec. split.
  - intros [[(p & q & H)|(p & q & H)] [(p' & q' & H')|(p' & q' & H')]]; split;
      first [ by exists "<html", p, q; split; [left|]
            | by exists "<HTML", p, q; split; [right|]
            | by exists "<body", p', q'; split; [left|]
            | by exists "<BODY", p', q'; split; [right|] ].
  - intros [(t & p & q & [->| ->] & H) (t' & p' & q' & [->| ->] & H')]; split;
      first [ by left; exists p, q | by right; exists p, q
            | by left; exists p', q' | by right; exists p', q' ].
Qed.

(** X7. A marker is found at any offset: a body that has a marker page
    anywhere inside it, with anything before and after, is reported
    unreachable, with the status code of the response. Both programs, each
    for its own markers. *)
Theorem marker_anywhere_unreachable Get site code pre page post :
  site <> "" ->
  Get (url_of site) = GetResponse (mkResponse code ((pre ++ page ++ post)%list, None)) ->
  (any_marker page = true ->
   exists nts, sent_result (go (Avant.procApp Get site)) =
               Some (mkReqRslt site false code nts)) /\
  (heroku_marker page = true ->
   sent_result (go (Main.procApp Get site)) =
   Some (mkReqRslt site false code "Heroku welcome or application error page")).
Proof.
  intros Hs HG. rewrite (avant_read_ok _ _ _ _ Hs HG), (main_read_ok _ _ _ _ Hs HG).
  unfold avant_verdict, main_verdict, any_marker, heroku_marker.
  rewrite isAvantErrPage_has, isHerokuErrPage_has, isHerokuWelPage_has, isHerokuPage_has.
  split.
  - rewrite !orb_true_iff. intros [[[H|H]|H]|H]; apply (has_embed _ pre post) in H;
      rewrite H, ?orb_true_r; simpl.
    + by eexists.
    + by eexists.
    + destruct (_ || _); by eexists.
    + destruct (_ || _); [by eexists|]. destruct (has _ heroku_error_marker); by eexists.
  - rewrite orb_true_iff. intros [H|H]; apply (has_embed _ pre post) in H;
      by rewrite H, ?orb_true_r.
Qed.

Lemma marker_anywhere_unreachable_witness :
  let body := (bytes_of "<html><body>" ++ bytes_of welcome_marker
               ++ bytes_of "</body></html>")%list in
  let Get := fun _ : string => GetResponse (mkResponse 200 (body, None)) in
  sent_result (go (Main.procApp Get "shop")) =
  Some (mkReqRslt "shop" false 200 "Heroku welcome or application error page").
Proof.
  intros body Get.
  refine (proj2 (marker_anywhere_unreachable Get "shop" 200
                   (bytes_of "<html><body>") (bytes_of welcome_marker)
                   (bytes_of "</body></html>") _ _) _).
  - discriminate.
  - reflexivity.
  - vm_compute. reflexivity.
Defined.

(** ** The rows of the report *)

Lemma string_app_assoc (a b c : string) : (a ++ b) ++ c = a ++ (b ++ c).
Proof.
  induction a as [|x a IH]; [reflexivity|].
  cbv [String.append]; fold String.append. by rewrite IH.
Qed.

Lemma string_length_app (a b : string) :
  String.length (a ++ b) = (String.length a + String.length b)%nat.
Proof.
  induction a as [|x a IH]; [reflexivity|].
  cbv [String.append]; fold String.append. simpl. by rewrite IH.
Qed.

(** X8. A row of the report does not determine its result: targets and
    notes are written as they are, commas included. When the reading of
    the body fails, the worker for target [a] with the read error
    [x ++ ",false,999,error reading the site response: " ++ y] and the
    worker for the target
    [a ++ ",false,999,error reading the site response: " ++ x] with the
    read error [y] send different results whose rows are the same. Both
    programs. *)
Theorem row_not_injective (a x y : string) (code code' : Z) (data data' : list byte) :
  a <> "" ->
  let sep := ",false,999,error reading the site response: " in
  let Get := fun _ : string => GetResponse (mkResponse code (data, Some (x ++ sep ++ y))) in
  let Get' := fun _ : string => GetResponse (mkResponse code' (data', Some y)) in
  exists v v',
    sent_result (go (Avant.procApp Get a)) = Some v /\
    sent_result (go (Avant.procApp Get' (a ++ sep ++ x))) = Some v' /\
    sent_result (go (Main.procApp Get a)) = Some v /\
    sent_result (go (Main.procApp Get' (a ++ sep ++ x))) = Some v' /\
    row v = row v' /\ v <> v'.
Proof.
  intros Ha sep Get Get'.
  assert (a ++ sep ++ x <> "") as Ha'.
  { intros E. apply (f_equal String.length) in E. rewrite string_length_app in E.
    destruct a; [done|]. simpl in E. lia. }
  rewrite (avant_read_failed Get a code data _ Ha eq_refl),
    (avant_read_failed Get' _ code' data' _ Ha' eq_refl),
    (main_read_failed Get a code data _ Ha eq_refl),
    (main_read_failed Get' _ code' data' _ Ha' eq_refl).
  do 2 eexists. do 4 (split; [reflexivity|]). split.
  - unfold row, sep. simpl. by rewrite !string_app_assoc.
  - intros E. apply (f_equal App) in E. simpl in E.
    apply (f_equal String.length) in E. rewrite !string_length_app in E.
    simpl in E. lia.
Qed.

Lemma row_not_injective_witness :
  let sep := ",false,999,error reading the site response: " in
  let Get := fun _ : string =>
    GetResponse (mkResponse 200 ([], Some ("reset" ++ sep ++ "timeout"))) in
  let Get' := fun _ : string => GetResponse (mkResponse 200 ([], Some "timeout")) in
  exists v v',
    sent_result (go (Avant.procApp Get "shop")) = Some v /\
    sent_result (go (Avant.procApp Get' ("shop" ++ sep ++ "reset"))) = Some v' /\
    row v = row v' /\ v <> v'.
Proof.
  intros sep Get Get'.
  destruct (row_not_injective "shop" "reset" "timeout" 200 200 [] [])
    as (v & v' & H1 & H2 & _ & _ & H3 & H4).
  - discriminate.
  - exists v, v'. split; [exact H1|]. split; [exact H2|]. split; [exact H3 | exact H4].
Defined.

(** * Further properties of the running program *)

(** ** The channel and the wait group *)

Lemma pending_le_length (gs : list (list Event)) : (pending gs <= length gs)%nat.
Proof.
  unfold pending. induction gs as [|g gs IH]; simpl; [lia|].
  assert (undone g <= 1)%nat; [|lia]. unfold undone. destruct (syncs g); lia.
Qed.

(** X9. No worker ever waits on the channel and [wg.Done()] never
    panics: in every state the program reaches, the channel holds at most
    [len(apps)] results, a goroutine whose next event is its send can take
    the step, the counter of the wait group lies between zero and the
    number of goroutines started, and it is positive whenever a goroutine
    is about to signal. Both programs. *)
Theorem workers_never_block (P : Program) (apps : list string)
    (net : nat -> string -> GetOutcome) (stdin : nat -> string) (s : State) :
  P = main_go \/ P = avant_go ->
  reachable P apps net stdin s ->
  (length (chn s) <= length apps)%nat /\
  (length (gos s) <= length apps)%nat /\
  0 <= wg s <= Z.of_nat (length (gos s)) /\
  (forall k r es, gos s !! k = Some (EvSend r :: es) ->
                  step_go apps k s =
                  Some (set_chn (chn s ++ [r]) (set_gos (<[k:=es]> (gos s)) s))) /\
  (forall k es, gos s !! k = Some (EvDone :: es) ->
                0 < wg s /\
                step_go apps k s =
                Some (set_wg (wg s - 1) (set_gos (<[k:=es]> (gos s)) s))).
Proof.
  intros HP Hs.
  assert (forall Get site, one_result site (go (proc P Get site))) as Hok.
  { intros Get site. by apply programs_one_result. }
  pose proof (inv_reachable P apps net stdin Hok s Hs) as HI.
  pose proof (inv_spawned _ _ HI) as Hsp. pose proof (inv_pc _ _ HI) as Hpc.
  pose proof (inv_wg _ _ HI) as Hwg.
  pose proof (Permutation_length (inv_sent _ _ HI)) as Hlen.
  rewrite length_fmap, length_app in Hlen.
  pose proof (sent_sites_length apps (gos s)) as Hle.
  pose proof (pending_le_length (gos s)) as Hpl.
  assert (length (gos s) <= length apps)%nat as Hg.
  { rewrite Hsp. unfold pc_inv in Hpc. destruct (pc s); simpl; lia. }
  split; [lia|]. split; [done|]. split; [lia|]. split.
  - intros k r es Hk. destruct (inv_stage _ _ HI _ _ Hk) as (site & Ha & Hstg).
    pose proof (stage_step _ _ _ Hstg) as [(_ & Hu & _) _].
    pose proof (sent_sites_length_lt apps _ _ _ Hk Hu) as Hlt.
    unfold step_go. rewrite Hk.
    destruct (Nat.ltb_spec (length (chn s)) (length apps)); [done|lia].
  - intros k es Hk.
    destruct (inv_live_before_barrier apps s k _ _ HI Hk) as (Hpos & _).
    split; [done|]. unfold step_go. rewrite Hk.
    destruct (Z.ltb_spec (wg s - 1) 0); [lia|done].
Qed.

Lemma workers_never_block_witness :
  let apps := ["shop"; ""] in
  let net := fun (_ : nat) (_ : string) => GetFailed "unexpected EOF" in
  let s := run avant_go apps net (fun _ => "") [MainT; MainT; GoT 0; GoT 1] init in
  (length (chn s) <= length apps)%nat /\ 0 <= wg s <= Z.of_nat (length (gos s)).
Proof.
  intros apps net s.
  destruct (workers_never_block avant_go apps net (fun _ => "") s (or_intror eq_refl))
    as (Hc & Hg & Hw & _).
  - apply run_reachable. apply reachable_init.
  - split; [exact Hc | exact Hw].
Defined.

(** ** The order of the rows *)

Lemma step_sent_by P apps net stdin t s s' :
  sched P apps net stdin t s = Some s' ->
  (drained s' ++ chn s' = drained s ++ chn s ++ sent_by t s)%list.
Proof.
  unfold sched. destruct (crashed s); [done|]. destruct t as [|k]; simpl.
  - unfold step_main. rewrite app_nil_r.
    destruct (pc s) as [i| | | |i|].
    + destruct (i <? length apps)%nat; [destruct (apps !! i)|]; by intros [= <-].
    + destruct (wg s =? 0); [|done]. by intros [= <-].
    + destruct (negb _); by intros [= <-].
    + by intros [= <-].
    + destruct (i <? length apps)%nat; [|by intros [= <-]].
      destruct (chn s) as [|v rest]; [done|]. intros [= <-]. simpl.
      by rewrite <- app_assoc.
    + done.
  - unfold step_go. destruct (gos s !! k) as [[|e es]|]; try done.
    destruct e; simpl;
      repeat match goal with
             | |- context [if ?c then _ else _] => destruct c
             end;
      try done; intros [= <-]; simpl; by rewrite ?app_nil_r.
Qed.

(** X10. The rows come out in the order the workers delivered, not in
    the order of the input: whatever the schedule, the values received so
    far followed by those waiting in the channel are the results sent so
    far, in the order of their sends. *)
Theorem rows_in_delivery_order (P : Program) (apps : list string)
    (net : nat -> string -> GetOutcome) (stdin : nat -> string) (sch : list Tid) :
  let s := run P apps net stdin sch init in
  (drained s ++ chn s)%list = sends P apps net stdin sch init.
Proof.
  simpl.
  assert (forall s0,
    (drained (run P apps net stdin sch s0) ++ chn (run P apps net stdin sch s0) =
     drained s0 ++ chn s0 ++ sends P apps net stdin sch s0)%list) as H.
  { induction sch as [|t sch IH]; intros s0; simpl; [by rewrite app_nil_r|].
    destruct (sched P apps net stdin t s0) as [s1|] eqn:Ht; [|apply IH].
    rewrite IH, app_assoc, (step_sent_by _ _ _ _ _ _ _ Ht). by rewrite <- !app_assoc. }
  apply (H init).
Qed.

(** ** The pause *)

(** X11. The program of [main.go] never reads standard input. The second
    program does not get past its pause while [ReadString] returns the
    empty string: with standard input exhausted it stays before the
    header for ever, and prints no row, whatever the workers did. *)
Theorem pause_needs_a_line (apps : list string)
    (net : nat -> string -> GetOutcome) (stdin : nat -> string) (s : State) :
  (reachable main_go apps net stdin s -> pc s <> Pausing /\ stdin_pos s = 0%nat) /\
  ((forall n, stdin n = "") -> reachable avant_go apps net stdin s ->
   match pc s with
   | Spawning _ | Waiting | Pausing => drained s = []
   | Heading | Draining _ | Finished => False
   end).
Proof.
  split.
  - induction 1 as [|s s' _ IH [t Ht]]; [done|]. destruct IH as [Hp Hz].
    unfold sched in Ht. destruct (crashed s); [done|]. destruct t as [|k].
    + unfold step_main in Ht. destruct (pc s) as [i| | | |i|] eqn:Epc; try done.
      * destruct (i <? length apps)%nat; [destruct (apps !! i)|];
          injection Ht as <-; simpl; rewrite ?Epc; done.
      * destruct (wg s =? 0); [|done]. injection Ht as <-. simpl. rewrite ?Epc. done.
      * injection Ht as <-. simpl. rewrite ?Epc. done.
      * destruct (i <? length apps)%nat; [destruct (chn s); [done|]|];
          injection Ht as <-; simpl; rewrite ?Epc; done.
    + unfold step_go in Ht. destruct (gos s !! k) as [[|e es]|]; try done.
      destruct e; simpl in Ht;
        repeat match type of Ht with
               | context [if ?c then _ else _] => destruct c
               end;
        try done; injection Ht as <-; simpl; rewrite ?Epc; done.
  - intros Hin Hs.
    pose proof (inv_reachable avant_go apps net stdin
                  (fun Get site => avant_one_result Get site) s Hs) as HI.
    pose proof (inv_pc _ _ HI) as Hpc. unfold pc_inv in Hpc.
    assert (match pc s with
            | Spawning _ | Waiting | Pausing => True
            | _ => False
            end) as Hbefore.
    { clear HI Hpc. induction Hs as [|s s' _ IH [t Ht]]; [done|].
      unfold sched in Ht. destruct (crashed s); [done|]. destruct t as [|k].
      - unfold step_main in Ht. destruct (pc s) as [i| | | |i|] eqn:Epc; try done.
        + destruct (i <? length apps)%nat; [destruct (apps !! i)|];
            injection Ht as <-; simpl; rewrite ?Epc; done.
        + destruct (wg s =? 0); [|done]. injection Ht as <-. simpl. rewrite ?Epc. done.
        + rewrite Hin in Ht. simpl in Ht. injection Ht as <-. simpl.
          by rewrite Epc.
      - unfold step_go in Ht. destruct (gos s !! k) as [[|e es]|]; try done.
        destruct e; simpl in Ht;
          repeat match type of Ht with
                 | context [if ?c then _ else _] => destruct c
                 end;
          try done; injection Ht as <-; simpl; rewrite ?Epc; done. }
    destruct (pc s); try done; by destruct Hpc.
Qed.

Lemma pause_needs_a_line_witness :
  let apps := [""] in
  let net := fun (_ : nat) (_ : string) => GetFailed "unexpected EOF" in
  let stdin := fun _ : nat => "" in
  let s := run avant_go apps net stdin ([MainT; GoT 0; GoT 0] ++ repeat MainT 20)%list init in
  pc s = Pausing /\ drained s = [].
Proof.
  intros apps net stdin s.
  assert (pc s = Pausing) as Hpc by (vm_compute; reflexivity).
  split; [exact Hpc|].
  pose proof (proj2 (pause_needs_a_line apps net stdin s) (fun _ => eq_refl)) as H.
  rewrite Hpc in H. apply H. apply run_reachable. apply reachable_init.
Defined.

(** ** Each row is the result of its own worker *)

Section DeliveriesInvariant.

Variable P : Program.
Variable apps : list string.
Variable net : nat -> string -> GetOutcome.
Variable stdin : nat -> string.
Hypothesis worker_ok : forall Get site, one_result site (go (proc P Get site)).

Lemma delivered_nil_r k (l : list string) : delivered_from P net k l [] = [].
Proof. by destruct l. Qed.

Lemma delivered_app_unsent k (l : list string) gs es :
  unsent es = true ->
  delivered_from P net k l (gs ++ [es]) = delivered_from P net k l gs.
Proof.
  intros Hes. revert k gs. induction l as [|a l IH]; intros k [|g gs]; simpl; try done.
  - by rewrite Hes, delivered_nil_r.
  - by rewrite IH.
Qed.

Lemma delivered_insert_same k (l : list string) gs i es es' :
  gs !! i = Some es -> unsent es' = unsent es ->
  delivered_from P net k l (<[i:=es']> gs) = delivered_from P net k l gs.
Proof.
  intros Hi Hu. revert k l i Hi.
  induction gs as [|g gs IH]; intros k [|a l] [|i] Hi; simpl in *; try done.
  - injection Hi as ->. by rewrite Hu.
  - by rewrite (IH _ _ _ Hi).
Qed.

Lemma delivered_insert_send k (l : list string) gs i es es' site :
  gs !! i = Some es -> l !! i = Some site ->
  unsent es = true -> unsent es' = false ->
  delivered_from P net k l (<[i:=es']> gs)
  ≡ₚ result_of P net (k + i) site :: delivered_from P net k l gs.
Proof.
  intros Hi Ha Hu Hu'. revert k l i Hi Ha.
  induction gs as [|g gs IH]; intros k [|a l] [|i] Hi Ha; simpl in *; try done.
  - injection Hi as ->. injection Ha as ->. by rewrite Hu, Hu', Nat.add_0_r.
  - replace (k + S i)%nat with (S k + i)%nat by lia.
    destruct (unsent g); rewrite (IH _ _ _ Hi Ha); [done|]. apply Permutation_swap.
Qed.

Lemma delivered_all_sent k (l : list string) gs :
  (forall es, es ∈ gs -> unsent es = false) -> length gs = length l ->
  delivered_from P net k l gs = imap (fun i => result_of P net (k + i)) l.
Proof.
  revert k gs. induction l as [|a l IH]; intros k [|g gs] H Hlen; simpl in *; try done.
  rewrite (H g) by constructor. rewrite Nat.add_0_r. f_equal.
  rewrite IH; [|intros es Hes; apply H; by constructor|lia].
  apply imap_ext. intros i x _. simpl. f_equal. lia.
Qed.

Lemma deliveries_step s s' :
  Inv apps s -> deliveries_inv P apps net s -> step P apps net stdin s s' -> deliveries_inv P apps net s'.
Proof.
  intros HI [HJ1 HJ2] [t Ht]. unfold sched in Ht. rewrite (inv_alive _ _ HI) in Ht.
  destruct t as [|k].
  - unfold step_main in Ht. pose proof (inv_spawned _ _ HI) as Hsp.
    destruct (pc s) as [i| | | |i|] eqn:Epc; simpl in Hsp.
    + destruct (i <? length apps)%nat; [|by injection Ht as <-].
      destruct (apps !! i) as [site|] eqn:Ea; [|by injection Ht as <-].
      injection Ht as <-. pose proof (worker_ok (net i) site) as (r & Hsy & _).
      split; simpl.
      * rewrite delivered_app_unsent; [done|]. unfold unsent. by rewrite Hsy.
      * intros k es site' Hk Ha Hu.
        destruct (decide (k < length (gos s))%nat) as [Hlt|Hge].
        { rewrite lookup_app_l in Hk by done. by eapply HJ2. }
        rewrite lookup_app_r in Hk by lia.
        destruct (k - length (gos s))%nat as [|n] eqn:En; simpl in Hk; [|done].
        injection Hk as <-. assert (k = i) as -> by lia.
        rewrite Ea in Ha. by injection Ha as <-.
    + destruct (wg s =? 0); [|done]. by injection Ht as <-.
    + destruct (negb _); by injection Ht as <-.
    + by injection Ht as <-.
    + destruct (i <? length apps)%nat; [|by injection Ht as <-].
      destruct (chn s) as [|v rest] eqn:Ec; [done|]. injection Ht as <-.
      split; simpl; [|done]. by rewrite <- app_assoc.
    + done.
  - unfold step_go in Ht. destruct (gos s !! k) as [[|e es]|] eqn:Hk; try done.
    destruct (inv_stage _ _ HI _ _ Hk) as (site & Ha & Hstg).
    pose proof (stage_step _ _ _ Hstg) as [He _].
    assert (forall e0, e0 = e -> (forall r, e0 <> EvSend r) ->
                       unsent es = unsent (e :: es) ->
                       deliveries_inv P apps net (set_gos (<[k:=es]> (gos s)) s) /\
                       forall k' es' site',
                         <[k:=es]> (gos s) !! k' = Some es' -> apps !! k' = Some site' ->
                         unsent es' = true -> sent_result es' = result_of P net k' site')
      as Hquiet.
    { intros e0 -> Hns Hu.
      assert (forall k' es' site',
                <[k:=es]> (gos s) !! k' = Some es' -> apps !! k' = Some site' ->
                unsent es' = true -> sent_result es' = result_of P net k' site') as H2.
      { intros k' es' site' Hk' Ha' Hu'. destruct (decide (k = k')) as [<-|Hne].
        - rewrite list_lookup_insert_eq in Hk' by (by eapply lookup_lt_Some).
          injection Hk' as <-. rewrite <- (HJ2 _ _ _ Hk Ha'); [|congruence].
          destruct e; try done. by destruct (Hns r).
        - rewrite list_lookup_insert_ne in Hk' by done. by eapply HJ2. }
      split; [|done]. split; simpl; [|done].
      by rewrite (delivered_insert_same _ _ _ _ _ _ Hk Hu). }
    destruct e; simpl in Ht, He.
    + injection Ht as <-. by apply (Hquiet (EvGet url)).
    + injection Ht as <-. by apply (Hquiet EvReadAll).
    + injection Ht as <-. destruct He as [Hu _].
      destruct (Hquiet (EvPrintf s0) eq_refl) as [[H1 H2] _]; done.
    + injection Ht as <-. by apply (Hquiet (EvLog s0)).
    + destruct (length (chn s) <? length apps)%nat; [|done]. injection Ht as <-.
      destruct He as (Happ & Hu1 & Hu2 & _).
      pose proof (HJ2 _ _ _ Hk Ha Hu1) as Hr. simpl in Hr.
      split; simpl.
      * rewrite (delivered_insert_send _ _ _ _ _ _ _ Hk Ha Hu1 Hu2). simpl.
        rewrite <- Hr, app_assoc, fmap_app, HJ1. simpl.
        by rewrite <- Permutation_cons_append.
      * intros k' es' site' Hk' Ha' Hu'. destruct (decide (k = k')) as [<-|Hne].
        { rewrite list_lookup_insert_eq in Hk' by (by eapply lookup_lt_Some).
          injection Hk' as <-. congruence. }
        rewrite list_lookup_insert_ne in Hk' by done. by eapply HJ2.
    + injection Ht as <-. by apply (Hquiet EvClose).
    + destruct He as (-> & Hu1 & _).
      destruct (wg s - 1 <? 0); injection Ht as <-;
        by destruct (Hquiet EvDone eq_refl) as [[H1 H2] _].
    + done.
Qed.

Lemma deliveries_reachable s : reachable P apps net stdin s -> deliveries_inv P apps net s.
Proof.
  induction 1 as [|s s' Hs IH Hstep].
  - split; simpl; [by rewrite delivered_nil_r | done].
  - eapply deliveries_step; [|done|done]. by apply (inv_reachable P apps net stdin).
Qed.

End DeliveriesInvariant.

(** X12. Each row is the result of its own worker. When [main] has
    returned, the values it received are, up to their order, the results
    that the workers send, one per target: the [k]-th of them is what
    [procApp] makes of the [k]-th target and of the answers its own
    requests got, whatever the other workers met. Both programs. *)
Theorem report_is_workers_results (P : Program) (apps : list string)
    (net : nat -> string -> GetOutcome) (stdin : nat -> string) (s : State) :
  P = main_go \/ P = avant_go ->
  reachable P apps net stdin s -> pc s = Finished ->
  Some <$> drained s ≡ₚ
  imap (fun k site => sent_result (go (proc P (net k) site))) apps.
Proof.
  intros HP Hs Hfin.
  assert (forall Get site, one_result site (go (proc P Get site))) as Hok.
  { intros Get site. by apply programs_one_result. }
  pose proof (inv_reachable P apps net stdin Hok s Hs) as HI.
  destruct (deliveries_reachable P apps net stdin Hok s Hs) as [HJ _].
  pose proof (inv_spawned _ _ HI) as Hsp. pose proof (inv_pc _ _ HI) as Hpc.
  unfold pc_inv in Hpc. rewrite Hfin in Hpc, Hsp. simpl in Hsp.
  destruct Hpc as (Hz & Hl & _).
  rewrite delivered_all_sent in HJ; [| |done].
  - assert (chn s = []) as Hc.
    { apply Permutation_length in HJ.
      rewrite length_fmap, length_app, length_imap in HJ.
      destruct (chn s); [done|simpl in HJ; lia]. }
    by rewrite Hc, app_nil_r in HJ.
  - intros es Hes. by rewrite (inv_all_exited apps s es HI Hz Hes).
Qed.

Lemma report_is_workers_results_witness :
  let apps := ["shop"; ""] in
  let net := fun (k : nat) (_ : string) => GetFailed "unexpected EOF" in
  let sch := ([MainT; MainT; GoT 1; GoT 1; GoT 0; GoT 0; GoT 0; GoT 0]
              ++ repeat MainT 6)%list in
  let s := run main_go apps net (fun _ => "") sch init in
  Some <$> drained s ≡ₚ
  imap (fun k site => sent_result (go (Main.procApp (net k) site))) apps.
Proof.
  intros apps net sch s.
  apply (report_is_workers_results main_go apps net (fun _ => "") s (or_introl eq_refl)).
  - apply run_reachable. apply reachable_init.
  - vm_compute. reflexivity.
Defined.

(** ** Standard output *)

Section Stdout.

Variable P : Program.
Variable apps : list string.
Variable net : nat -> string -> GetOutcome.
Variable stdin : nat -> string.
Variable Q : string -> Prop.
Hypothesis worker_ok : forall Get site, one_result site (go (proc P Get site)).
Hypothesis worker_prints : forall Get site, Forall Q (prints (go (proc P Get site))).

Lemma prints_tail e es : Forall Q (prints (e :: es)) -> Forall Q (prints es).
Proof. destruct e; simpl; try done. by inversion 1. Qed.

Lemma stdout_step s s' :
  Inv apps s -> stdout_inv Q s -> step P apps net stdin s s' -> stdout_inv Q s'.
Proof.
  intros HI [Hg Hout] [t Ht]. unfold sched in Ht. rewrite (inv_alive _ _ HI) in Ht.
  pose proof (inv_pc _ _ HI) as Hpc. unfold pc_inv in Hpc.
  destruct t as [|k].
  - unfold step_main in Ht. destruct (pc s) as [i| | | |i|] eqn:Epc.
    + destruct (i <? length apps)%nat; [|injection Ht as <-; by split].
      destruct (apps !! i) as [site|]; injection Ht as <-; split; simpl;
        rewrite ?Epc; try done.
      apply Forall_app. split; [done|]. constructor; [apply worker_prints|constructor].
    + destruct (wg s =? 0); [|done]. injection Ht as <-. split; simpl; [done|].
      by destruct (pauses P).
    + destruct (negb _); injection Ht as <-; split; simpl; rewrite ?Epc; done.
    + injection Ht as <-. split; simpl; [done|]. destruct Hpc as [_ ->].
      by exists (stdout s).
    + destruct (i <? length apps)%nat; [|injection Ht as <-; by split].
      destruct (chn s) as [|v rest]; [done|]. injection Ht as <-.
      split; simpl; [done|]. destruct Hout as (pre & Hpre & ->).
      exists pre. split; [done|]. by rewrite fmap_app, <- app_assoc.
    + done.
  - unfold step_go in Ht. destruct (gos s !! k) as [[|e es]|] eqn:Hk; try done.
    destruct (inv_live_before_barrier apps s k _ _ HI Hk) as (_ & _ & Hbefore).
    pose proof (Forall_lookup_1 _ _ _ _ Hg Hk) as Hp.
    pose proof (prints_tail _ _ Hp) as Hp'.
    pose proof (Forall_insert _ _ k _ Hg Hp') as Hg'.
    assert (Forall Q (stdout s)) as Hs.
    { destruct Hbefore as [(i & Ei & _)|Ei]; by rewrite Ei in Hout. }
    assert (forall out, Forall Q out ->
              stdout_inv Q (mkState (pc s) (wg s) (chn s) (<[k:=es]> (gos s)) out
                              (stdin_pos s) (drained s) (crashed s))) as Hq.
    { intros out Ho. split; simpl; [done|].
      destruct Hbefore as [(i & -> & _)| ->]; done. }
    assert (forall out c w b, Forall Q out ->
              stdout_inv Q (mkState (pc s) w c (<[k:=es]> (gos s)) out
                              (stdin_pos s) (drained s) b)) as Hq'.
    { intros out c w b Ho. split; simpl; [done|].
      destruct Hbefore as [(i & -> & _)| ->]; done. }
    destruct e; simpl in Ht;
      repeat match type of Ht with
             | context [if ?c then _ else _] => destruct c
             end;
      try done; injection Ht as <-; try (by apply Hq'); try (by apply Hq).
    apply Hq'. apply Forall_app. split; [done|]. simpl in Hp. inversion Hp; subst.
    by constructor.
Qed.

Lemma stdout_reachable s : reachable P apps net stdin s -> stdout_inv Q s.
Proof.
  induction 1 as [|s s' Hs IH Hstep]; [by split; simpl|].
  eapply stdout_step; [|done|done]. by apply (inv_reachable P apps net stdin).
Qed.

End Stdout.

Lemma main_prints_nothing Get site : prints (go (Main.procApp Get site)) = [].
Proof.
  destruct (string_dec site "") as [->|Hs]; [done|].
  destruct (Get (url_of site)) as [ferr|[code [body [ferr|]]]] eqn:HG.
  - by rewrite (main_get_failed _ _ _ Hs HG).
  - by rewrite (main_read_failed _ _ _ _ _ Hs HG).
  - by rewrite (main_read_ok _ _ _ _ Hs HG).
Qed.

Lemma avant_prints_errors Get site :
  Forall error_line (prints (go (Avant.procApp Get site))).
Proof.
  destruct (string_dec site "") as [->|Hs]; [constructor|].
  destruct (Get (url_of site)) as [ferr|[code [body [ferr|]]]] eqn:HG.
  - rewrite (avant_get_failed _ _ _ Hs HG).
    destruct (strings_Contains ferr "EOF");
      [|destruct (strings_Contains ferr "x509: certificate is valid for")];
      repeat constructor.
  - rewrite (avant_read_failed _ _ _ _ _ Hs HG). repeat constructor.
  - rewrite (avant_read_ok _ _ _ _ Hs HG). constructor.
Qed.

(** X13. The workers of the program of [main.go] write nothing on
    standard output (their messages go to the log), so its standard
    output is the report and nothing else: empty until the header, then
    the header and one row per value received. In the second program the
    workers' error messages share standard output with the report: what
    the workers print are messages that begin with "ERROR: ", all of them
    before the header, and no worker prints between the header and the
    rows or between two rows. (The banners and progress lines of [main],
    which the second program also prints on standard output, are not in
    [stdout].) *)
Theorem stdout_is_the_report (apps : list string)
    (net : nat -> string -> GetOutcome) (stdin : nat -> string) (s : State) :
  (reachable main_go apps net stdin s ->
   stdout s = match pc s with
              | Draining _ | Finished => header :: (row <$> drained s)
              | _ => []
              end) /\
  (reachable avant_go apps net stdin s ->
   match pc s with
   | Draining _ | Finished =>
       exists pre, Forall error_line pre /\
                   stdout s = (pre ++ header :: (row <$> drained s))%list
   | _ => Forall error_line (stdout s)
   end).
Proof.
  split; intros Hs.
  - assert (forall l : list string, Forall (fun _ => False) l -> l = []) as Hnil.
    { intros [|x l] H; [done|]. by inversion H. }
    destruct (stdout_reachable main_go apps net stdin (fun _ => False)
                (fun Get site => main_one_result Get site)) with (s := s) as [_ H].
    + intros Get site. rewrite main_prints_nothing. constructor.
    + done.
    + destruct (pc s); try (by apply Hnil).
      * destruct H as (pre & Hpre & ->). by rewrite (Hnil _ Hpre).
      * destruct H as (pre & Hpre & ->). by rewrite (Hnil _ Hpre).
  - destruct (stdout_reachable avant_go apps net stdin error_line
                (fun Get site => avant_one_result Get site)) with (s := s) as [_ H].
    + apply avant_prints_errors.
    + done.
    + done.
Qed.

(** * The start of the program *)

Lemma scan_loop_app (tokens apps : list string) :
  scan_loop tokens apps = (apps ++ tokens)%list.
Proof.
  revert apps. induction tokens as [|t tokens IH]; intros apps; simpl.
  - by rewrite app_nil_r.
  - by rewrite IH, <- app_assoc.
Qed.

Lemma startup_cases (P : Program) (args : list string) (os_Open : string -> File + string) :
  P = main_go \/ P = avant_go ->
  snd (startup P args os_Open) =
  match args with
  | [_; path] =>
      match os_Open path with
      | inl f => match scan_error f with
                 | None => Proceed (scanned f)
                 | Some _ => Exit 1
                 end
      | inr _ => Exit 1
      end
  | _ => Exit 1
  end.
Proof.
  intros HP.
  assert (snd (main_startup args os_Open) = snd (avant_startup args os_Open)) as Hsame.
  { unfold main_startup, avant_startup.
    destruct (negb _); [done|]. destruct (args !! 1%nat) as [path|]; [|done].
    destruct (os_Open path) as [f|e]; [|done]. by destruct (scan_error f). }
  assert (snd (startup P args os_Open) = snd (avant_startup args os_Open)) as ->.
  { destruct HP as [->| ->]; [exact Hsame|reflexivity]. }
  unfold avant_startup.
  destruct (Z.eqb_spec (Z.of_nat (length args)) 2) as [Hlen|Hlen]; simpl.
  - destruct args as [|a0 [|a1 [|a2 args]]]; simpl in Hlen; try lia. simpl.
    destruct (os_Open a1) as [f|e]; [|done].
    rewrite scan_loop_app. simpl. by destruct (scan_error f).
  - destruct args as [|a0 [|a1 [|a2 args]]]; simpl in Hlen; try done; lia.
Qed.

(** X14. The program goes on to probe exactly when it is given one
    argument, the file of that name opens, and the scanner reads it to
    its end without error; the targets are then the lines of the file in
    their order, blank lines included. In every other case it exits with
    status 1 and probes nothing: the lines read before a scanner error
    are dropped. It never takes [args[1]] out of range. Both programs. *)
Theorem startup_outcomes (P : Program) (args : list string)
    (os_Open : string -> File + string) :
  P = main_go \/ P = avant_go ->
  (forall apps,
     snd (startup P args os_Open) = Proceed apps <->
     exists prog path f,
       args = [prog; path] /\ os_Open path = inl f /\
       scan_error f = None /\ apps = scanned f) /\
  (snd (startup P args os_Open) = Exit 1 \/
   exists apps, snd (startup P args os_Open) = Proceed apps).
Proof.
  intros HP. rewrite (startup_cases P args os_Open HP). split.
  - intros apps. split.
    + destruct args as [|a0 [|a1 [|a2 args]]]; try done.
      destruct (os_Open a1) as [f|e] eqn:Ho; [|done].
      destruct (scan_error f) eqn:He; [done|]. intros [= <-]. by exists a0, a1, f.
    + intros (prog & path & f & -> & Ho & He & ->). by rewrite Ho, He.
  - destruct args as [|a0 [|a1 [|a2 args]]]; try (by left).
    destruct (os_Open a1) as [f|e]; [|by left].
    destruct (scan_error f); [by left|]. right. by eexists.
Qed.

Lemma startup_outcomes_witness :
  let os_Open := fun _ : string =>
    (inl (mkFile ["shop"; ""; "blog"] None) : File + string) in
  snd (startup avant_go ["probe"; "apps.txt"] os_Open) = Proceed ["shop"; ""; "blog"].
Proof.
  intros os_Open.
  apply (proj1 (startup_outcomes avant_go ["probe"; "apps.txt"] os_Open
                  (or_intror eq_refl))).
  exists "probe", "apps.txt", (mkFile ["shop"; ""; "blog"] None). repeat split.
Defined.

(** X15. When the scanner stops on an error the message printed does
    not show it: both programs format the package variable [err], which
    holds the (nil) error of [os.Open], so the line reads "See: <nil>"
    whatever the scanner's error was. *)
Theorem scan_error_not_shown (prog path : string) (f : File) (e : string)
    (os_Open : string -> File + string) :
  os_Open path = inl f -> scan_error f = Some e ->
  avant_startup [prog; path] os_Open =
    ([nl ++ nl ++ stars ++ nl ++ "INFO: Start processing job" ++ nl ++ dashes ++ nl ++ nl;
      "ERROR: error reading the input file. See: <nil>" ++ nl], Exit 1) /\
  main_startup [prog; path] os_Open =
    (["INFO: start processing..." ++ nl;
      "ERROR: error reading the input file. See: <nil>" ++ nl], Exit 1).
Proof.
  intros Ho He. unfold avant_startup, main_startup. simpl. by rewrite Ho, He.
Qed.

Lemma scan_error_not_shown_witness :
  let f := mkFile ["shop"] (Some "bufio.Scanner: token too long") in
  snd (avant_startup ["probe"; "apps.txt"] (fun _ => inl f)) = Exit 1.
Proof.
  intros f.
  rewrite (proj1 (scan_error_not_shown "probe" "apps.txt" f
                    "bufio.Scanner: token too long" (fun _ => inl f) eq_refl eq_refl)).
  reflexivity.
Defined.

(** X16. From the command line to the report: when the program, started
    on its arguments, goes on to probe and [main] returns, the report has
    one row per line of the input file, and the targets of the rows are
    the lines of the file up to their order; each blank line gives a row
    for the empty target. Both programs. *)
Theorem one_row_per_line (P : Program) (args : list string)
    (os_Open : string -> File + string) (apps : list string)
    (net : nat -> string -> GetOutcome) (stdin : nat -> string) (s : State) :
  P = main_go \/ P = avant_go ->
  snd (startup P args os_Open) = Proceed apps ->
  reachable P apps net stdin s -> pc s = Finished ->
  exists prog path f,
    args = [prog; path] /\ os_Open path = inl f /\
    length (drained s) = length (scanned f) /\
    App <$> drained s ≡ₚ scanned f /\
    (forall v, v ∈ drained s -> App v = "" ->
               v = mkReqRslt "" false 999 "no site name was provided").
Proof.
  intros HP Hst Hs Hfin. rewrite (startup_cases P args os_Open HP) in Hst.
  destruct args as [|a0 [|a1 [|a2 args]]]; try done.
  destruct (os_Open a1) as [f|e] eqn:Ho; [|done].
  destruct (scan_error f); [done|]. injection Hst as <-.
  exists a0, a1, f. do 2 (split; [done|]).
  assert (forall Get site, one_result site (go (proc P Get site))) as Hok.
  { intros Get site. by apply programs_one_result. }
  pose proof (inv_reachable P (scanned f) net stdin Hok s Hs) as HI.
  pose proof (inv_spawned _ _ HI) as Hsp. pose proof (inv_pc _ _ HI) as Hpc.
  unfold pc_inv in Hpc. rewrite Hfin in Hpc, Hsp. simpl in Hsp.
  destruct Hpc as (Hz & Hl & _).
  pose proof (inv_all_delivered _ _ HI Hz Hsp) as Hperm.
  destruct (deliveries_reachable P (scanned f) net stdin Hok s Hs) as [HJ _].
  rewrite delivered_all_sent in HJ; [|intros es Hes;
    by rewrite (inv_all_exited _ s es HI Hz Hes)|done].
  assert (chn s = []) as Hc.
  { apply Permutation_length in Hperm. rewrite length_fmap, length_app in Hperm.
    destruct (chn s); [done|simpl in Hperm; lia]. }
  rewrite Hc, app_nil_r in Hperm, HJ. do 2 (split; [done|]).
  intros v Hv Ha.
  assert (Some v ∈ Some <$> drained s) as Hin by (by apply list_elem_of_fmap_2).
  rewrite HJ in Hin. apply list_elem_of_lookup in Hin as [k Hk].
  rewrite list_lookup_imap in Hk.
  destruct (scanned f !! k) as [site|] eqn:Hsite; [|done]. simpl in Hk.
  injection Hk as Hk. unfold result_of in Hk.
  destruct (Hok (net k) site) as (r & _ & Hr & Hsr & _).
  rewrite Hsr in Hk. injection Hk as ->. rewrite Ha in Hr. subst site.
  destruct HP as [->| ->]; simpl in Hsr; by injection Hsr as <-.
Qed.

Lemma one_row_per_line_witness :
  let os_Open := fun _ : string => (inl (mkFile ["shop"; ""] None) : File + string) in
  let net := fun (k : nat) (_ : string) => GetFailed "unexpected EOF" in
  let sch := ([MainT; MainT; GoT 1; GoT 1; GoT 0; GoT 0; GoT 0; GoT 0]
              ++ repeat MainT 6)%list in
  let s := run main_go ["shop"; ""] net (fun _ => "") sch init in
  exists prog path f,
    ["probe"; "apps.txt"] = [prog; path] /\ os_Open path = inl f /\
    length (drained s) = length (scanned f) /\
    App <$> drained s ≡ₚ scanned f /\
    (forall v, v ∈ drained s -> App v = "" ->
               v = mkReqRslt "" false 999 "no site name was provided").
Proof.
  intros os_Open net sch s.
  apply (one_row_per_line main_go ["probe"; "apps.txt"] os_Open ["shop"; ""]
           net (fun _ => "") s (or_introl eq_refl)).
  - reflexivity.
  - apply run_reachable. apply reachable_init.
  - vm_compute. reflexivity.
Defined.

(** * The size of a note *)

Lemma string_of_length (l : list byte) : String.length (string_of l) = length l.
Proof.
  unfold string_of, string_of_list_byte.
  induction l as [|c l IH]; simpl; [done|]. by rewrite IH.
Qed.

Lemma fmt_int_small (n : Z) : 0 <= n <= 50 -> (String.length (fmt_int n) <= 2)%nat.
Proof.
  intros Hn. replace n with (Z.of_nat (Z.to_nat n)) by lia.
  assert (Z.to_nat n <= 50)%nat as Hm by lia. revert Hm. generalize (Z.to_nat n) as m.
  intros m Hm. do 51 (destruct m as [|m]; [vm_compute; lia|]). lia.
Qed.

Lemma preview_length (body : list byte) : (String.length (preview body) <= 82)%nat.
Proof.
  unfold preview. rewrite !string_length_app, string_of_length, length_take.
  pose proof (fmt_int_small (clamp body)) as Hf. rewrite clamp_min in *.
  unfold len_bytes in *. simpl. lia.
Qed.

(** X17. However large the body, the note written for a body that was
    read is short: one of the fixed notes, or the preview, which shows at
    most 50 bytes of the body; in all at most 82 bytes. Both programs. *)
Theorem note_length_bounded Get site code body :
  site <> "" ->
  Get (url_of site) = GetResponse (mkResponse code (body, None)) ->
  exists ra rm,
    sent_result (go (Avant.procApp Get site)) = Some ra /\
    sent_result (go (Main.procApp Get site)) = Some rm /\
    (String.length (Notes ra) <= 82)%nat /\ (String.length (Notes rm) <= 82)%nat.
Proof.
  intros Hs HG. rewrite (avant_read_ok _ _ _ _ Hs HG), (main_read_ok _ _ _ _ Hs HG).
  do 2 eexists. do 2 (split; [reflexivity|]).
  pose proof (preview_length body) as Hp.
  unfold avant_verdict, main_verdict. split.
  - destruct (Avant.isAvantErrPage body); [vm_compute; lia|].
    destruct (Avant.isHerokuErrPage body); [vm_compute; lia|].
    destruct (Avant.isHerokuWelPage body); [vm_compute; lia|].
    destruct (Avant.isHTML body); [vm_compute; lia|]. done.
  - destruct (Main.isHerokuPage body); [vm_compute; lia|].
    destruct (Main.isHTML body); [vm_compute; lia|]. done.
Qed.

Lemma note_length_bounded_witness :
  let body := repeat "x"%byte 1000 in
  let Get := fun _ : string => GetResponse (mkResponse 200 (body, None)) in
  exists ra,
    sent_result (go (Avant.procApp Get "shop")) = Some ra /\
    (String.length (Notes ra) <= 82)%nat.
Proof.
  intros body Get.
  destruct (note_length_bounded Get "shop" 200 body) as (ra & rm & Ha & _ & Hl & _).
  - discriminate.
  - reflexivity.
  - exists ra. split; [exact Ha | exact Hl].
Defined.
